(** * Flood spread simulation ([src/03_flood_ca_simulation/simulate.py])

    A shallow embedding of the cellular-automaton water model [simulate]
    and the properties its specification states about it.

    Numbers.  The program computes on IEEE binary64 arrays.  The embedding
    idealises every array element as an exact rational ([Q]); equalities
    between depths are therefore stated with [==] ([Qeq]), and the
    specification's "within floating-point tolerance" becomes exact
    equality.  Rounding is outside the model.

    Arrays.  A 2-D numpy array is a [list (list Q)] in row-major order.
    numpy arrays are always rectangular; the theorems that need the shape
    carry a [rect rows cols] hypothesis.

    The depth-damage curve of [src/07_flood_loss_damage/loss_damage.py],
    which turns a water depth into a loss fraction, is embedded beside it. *)

From Stdlib Require Import QArith Qminmax Qabs Lqa ZArith Lia.
From stdpp Require Import base list gmap.

Local Open Scope Q_scope.

(** ** Python-level failures *)

Inductive pyerror : Type :=
| ZeroDivisionError
| IndexError.

Inductive result (A : Type) : Type :=
| Ok (a : A)
| Err (e : pyerror).
Arguments Ok {A} a.
Arguments Err {A} e.

#[global] Instance result_ret : MRet result := fun A a => Ok a.
#[global] Instance result_bind : MBind result := fun A B f m =>
  match m with
  | Ok a => f a
  | Err e => Err e
  end.

(** ** Arrays *)

Module Grid.

Abbreviation grid := (list (list Q)).

(** [rect rows cols g]: [g] has shape [(rows, cols)]. *)
Definition rect (rows cols : nat) (g : grid) : Prop :=
  length g = rows /\ Forall (fun r => length r = cols) g.

(** [g[r][c]] for in-range indices; [0] outside (only used in range). *)
Definition cell (g : grid) (r c : nat) : Q := nth c (nth r g []) 0.

(** [shape[1]] of an array that has at least one row. *)
Definition ncols (g : grid) : nat :=
  match g with
  | [] => O
  | r :: _ => length r
  end.

(** [np.zeros_like(a)] *)
Definition zeros_like (g : grid) : grid := map (map (fun _ => 0)) g.

(** Element-wise unary and binary operations (operands of one shape). *)
Definition map1 (f : Q -> Q) (g : grid) : grid := map (map f) g.
Definition map2 (f : Q -> Q -> Q) (a b : grid) : grid :=
  zip_with (zip_with f) a b.

Definition add (a b : grid) : grid := map2 Qplus a b.
Definition sub (a b : grid) : grid := map2 Qminus a b.
(** [a + k], [a - k], [k * a] with a scalar [k] *)
Definition add_scalar (a : grid) (k : Q) : grid := map1 (fun x => x + k) a.
Definition sub_scalar (a : grid) (k : Q) : grid := map1 (fun x => x - k) a.
Definition scale (k : Q) (a : grid) : grid := map1 (fun x => k * x) a.

(** [np.clip(a, lo, None)], that is [np.maximum(a, lo)] *)
Definition clip_lo (lo : Q) (a : grid) : grid := map1 (fun x => Qmax x lo) a.

(** [np.roll] along one axis of a 1-D sequence: the element at index [i]
    moves to index [(i + shift) mod n]. *)
Definition roll1 {A : Type} (shift : Z) (l : list A) : list A :=
  match length l with
  | O => l
  | S _ as n =>
      let k := Z.to_nat (shift mod Z.of_nat n) in
      drop (n - k) l ++ take (n - k) l
  end.

(** [np.roll(a, shift, axis=0)] and [np.roll(a, shift, axis=1)] *)
Definition roll (shift : Z) (axis : nat) (g : grid) : grid :=
  match axis with
  | O => roll1 shift g
  | _ => map (roll1 shift) g
  end.

(** [a.sum()] *)
Definition row_sum (r : list Q) : Q := foldr Qplus 0 r.
Definition sum (g : grid) : Q := foldr (fun r acc => row_sum r + acc) 0 g.

(** Python index normalisation on an axis of length [n]: [-1] is the last
    element; out of range is an [IndexError]. *)
Definition py_index (n : nat) (i : Z) : result nat :=
  if decide (0 <= i < Z.of_nat n)%Z then Ok (Z.to_nat i)
  else if decide (- Z.of_nat n <= i < 0)%Z then Ok (Z.to_nat (Z.of_nat n + i))
  else Err IndexError.

(** [a[i,:] *= k] *)
Definition imul_row (i : Z) (k : Q) (g : grid) : result grid :=
  i' ← py_index (length g) i;
  mret (alter (map (fun x => x * k)) i' g).

(** [a[:,j] *= k] *)
Definition imul_col (j : Z) (k : Q) (g : grid) : result grid :=
  j' ← py_index (ncols g) j;
  mret (map (alter (fun x => x * k) j') g).

End Grid.

Import Grid.

(** ** The simulation *)

Record config : Type := Config {
  rainfall_mm : Q;
  steps : Z;
  infiltration_m : Q;
  allow_edge_outflow : bool
}.

(** The defaults of [simulate]'s signature. *)
Definition default_config : config :=
  {| rainfall_mm := 120; steps := 250;
     infiltration_m := 2 # 1000; allow_edge_outflow := true |}.

(** [rain_per_step = (rainfall_mm / 1000.0) / steps]; Python raises
    [ZeroDivisionError] when [steps] is [0]. *)
Definition rain_per_step (cfg : config) : result Q :=
  if decide (steps cfg = 0%Z) then Err ZeroDivisionError
  else Ok ((rainfall_mm cfg / 1000) / inject_Z (steps cfg)).

(** Von Neumann neighbourhood (N,S,E,W) *)
Definition neighbours : list (Z * Z) :=
  [((-1)%Z, 0%Z); (1%Z, 0%Z); (0%Z, (-1)%Z); (0%Z, 1%Z)].

(** [np.roll(np.roll(a, di, axis=0), dj, axis=1)] *)
Definition shift2 (di dj : Z) (a : grid) : grid := roll dj 1 (roll di 0 a).

(** The first [for di, dj in neighbours] loop: starting from
    [np.zeros_like(H)], [flux += np.clip(H - shifted, 0, None)]. *)
Definition flux_of (H : grid) : grid :=
  fold_left
    (fun flux '(di, dj) => add flux (clip_lo 0 (sub H (shift2 di dj H))))
    neighbours (zeros_like H).

(** [moved = 0.2 * flux] *)
Definition moved_of (H : grid) : grid := scale (2 # 10) (flux_of H).

(** The second loop:
    [water += 0.05 * np.roll(np.roll(moved, -di, axis=0), -dj, axis=1)]. *)
Definition redistribute (moved water : grid) : grid :=
  fold_left
    (fun w '(di, dj) => add w (scale (5 # 100) (shift2 (- di) (- dj) moved)))
    neighbours water.

(** Step 5 of the loop body; each of the four statements indexes the array
    and fails on an empty axis. *)
Definition edge_outflow (water : grid) : result grid :=
  w1 ← imul_row 0 (7 # 10) water;
  w2 ← imul_row (-1) (7 # 10) w1;
  w3 ← imul_col 0 (7 # 10) w2;
  imul_col (-1) (7 # 10) w3.

(** Steps 1-3 of the loop body (rainfall, surface, flow), which cannot fail. *)
Definition rain (rps : Q) (water : grid) : grid := add_scalar water rps.
Definition surface (dem water : grid) : grid := add dem water.
Definition remove_outflow (moved water : grid) : grid :=
  clip_lo 0 (sub water moved).
Definition flow (dem water : grid) : grid :=
  let moved := moved_of (surface dem water) in
  redistribute moved (remove_outflow moved water).
Definition infiltrate (infil : Q) (water : grid) : grid :=
  clip_lo 0 (sub_scalar water infil).

(** One iteration of [for _ in range(steps)]. *)
Definition step (dem : grid) (rps : Q) (cfg : config) (water : grid)
  : result grid :=
  let water := rain rps water in
  let water := flow dem water in
  let water := infiltrate (infiltration_m cfg) water in
  if allow_edge_outflow cfg then edge_outflow water else Ok water.

(** [n] iterations of the loop body from the state [water]. *)
Fixpoint run (n : nat) (dem : grid) (rps : Q) (cfg : config) (water : grid)
  : result grid :=
  match n with
  | O => Ok water
  | S n' => water' ← step dem rps cfg water; run n' dem rps cfg water'
  end.

(** [simulate(dem, rainfall_mm, steps, infiltration_m, allow_edge_outflow)];
    [range(steps)] is empty for [steps <= 0]. *)
Definition simulate (dem : grid) (cfg : config) : result grid :=
  rps ← rain_per_step cfg;
  run (Z.to_nat (steps cfg)) dem rps cfg (zeros_like dem).

(** ** Shapes, cell-wise predicates and indices *)

(** Two arrays (possibly ragged lists) with rows of equal lengths. *)
Definition same_shape (a b : grid) : Prop :=
  Forall2 (fun x y => length x = length y) a b.

(** [P] holds of every element. *)
Definition all (P : Q -> Prop) (g : grid) : Prop := Forall (Forall P) g.

Definition nonneg (g : grid) : Prop := all (fun x => 0 <= x) g.

(** Every element equals [v]: a constant field. *)
Definition uniform (v : Q) (g : grid) : Prop := all (fun x => x == v) g.

(** [le2 a b]: [a[r][c] <= b[r][c]] at every cell (arrays of one shape). *)
Definition le2 (a b : grid) : Prop := Forall2 (Forall2 Qle) a b.

(** [at_cell g r c x]: indices [r], [c] are in range and [g[r][c]] is [x]. *)
Definition at_cell (g : grid) (r c : nat) (x : Q) : Prop :=
  exists row, g !! r = Some row /\ row !! c = Some x.

(** The index that [np.roll] by [shift] brings to position [i] on an axis
    of length [n]: [(i - shift) mod n]. *)
Definition wrap (n : nat) (i : nat) (shift : Z) : nat :=
  Z.to_nat ((Z.of_nat i - shift) mod Z.of_nat n).

(** The number of cells of a [rows]x[cols] array, as a rational. *)
Definition cells (rows cols : nat) : Q :=
  inject_Z (Z.of_nat rows) * inject_Z (Z.of_nat cols).

(** Two arrays of one shape whose elements are equal as rationals. *)
Definition grid_eq (a b : grid) : Prop := Forall2 (Forall2 Qeq) a b.


(** ** The loop body in two parts *)

(** The four border statements on an array with no empty axis, as one
    expression. *)
Definition edge_scaled (rows cols : nat) (g : grid) : grid :=
  let k := fun x : Q => x * (7 # 10) in
  map (alter k (cols - 1)%nat)
    (map (alter k 0%nat)
       (alter (map k) (rows - 1)%nat (alter (map k) 0%nat g))).

(** How often the border statements touch the cell [(r, c)]. *)
Definition edge_hits (rows cols r c : nat) : nat :=
  ((if decide (r = 0) then 1 else 0) + (if decide (r = rows - 1) then 1 else 0)
   + (if decide (c = 0) then 1 else 0) + (if decide (c = cols - 1) then 1 else 0))%nat.

(** The loop body up to and including infiltration. *)
Definition before_edge (dem : grid) (rps : Q) (cfg : config) (water : grid)
  : grid :=
  infiltrate (infiltration_m cfg) (flow dem (rain rps water)).

(** ** What the specification calls an invalid configuration *)

(** The constraint of the specification: non-negative rainfall and
    infiltration, at least one step. *)
Definition invalid (cfg : config) : Prop :=
  rainfall_mm cfg < 0 \/ infiltration_m cfg < 0 \/ (steps cfg <= 0)%Z.

Definition fails {A : Type} (r : result A) : Prop := exists e, r = Err e.

(** ** Test terrains and configurations *)

(** The terrain and configuration used to test the conservation claims:
    one raised cell on a 2x2 grid. *)
Definition dem_bump : grid := [[1; 0]; [0; 0]].

Definition cfg_single_50 : config :=
  {| rainfall_mm := 50; steps := 1; infiltration_m := 0;
     allow_edge_outflow := false |}.

(** A second test terrain: one row, a raised cell next to a low one. *)
Definition dem_ridge : grid := [[1; 0]].

Definition cfg_dry (infil : Q) (edge : bool) : config :=
  {| rainfall_mm := 0; steps := 1; infiltration_m := infil;
     allow_edge_outflow := edge |}.

(** The 4x4 flat-field scenario of the specification. *)
Definition dem_flat4 : grid :=
  [[0; 0; 0; 0]; [0; 0; 0; 0]; [0; 0; 0; 0]; [0; 0; 0; 0]].

Definition cfg_flat4 : config :=
  {| rainfall_mm := 100; steps := 10; infiltration_m := 0;
     allow_edge_outflow := false |}.

(** A 3x3 field of unit depth, to read off the border factors. *)
Definition ones3 : grid := [[1; 1; 1]; [1; 1; 1]; [1; 1; 1]].

Definition cfg_negative_rain : config :=
  {| rainfall_mm := -50; steps := 1; infiltration_m := 0;
     allow_edge_outflow := false |}.

Definition cfg_negative_steps : config :=
  {| rainfall_mm := 50; steps := -3; infiltration_m := 0;
     allow_edge_outflow := true |}.

(** ** Depth-damage curve ([src/07_flood_loss_damage/loss_damage.py])

    The consumer of water depths: the loss fraction of a building standing
    in [depth_m] metres of water (exact rationals, as above). *)

Module LossDamage.

(** [depth_damage_fraction(depth_m)] *)
Definition depth_damage_fraction (depth_m : Q) : Q :=
  if Qle_bool depth_m 0 then 0
  else if Qlt_le_dec depth_m (2 # 10) then (1 # 10) * depth_m / (2 # 10)
  else if Qlt_le_dec depth_m 1 then (1 # 10) + (4 # 10) * (depth_m - (2 # 10)) / (8 # 10)
  else if Qlt_le_dec depth_m 2 then (5 # 10) + (4 # 10) * (depth_m - 1) / 1
  else 95 # 100.

End LossDamage.

(** ** Arrays as objects: the store model

    [simulate] as Python executes it, with every array a mutable object in
    a store: a name holds a reference, [a = expr] binds the name to a newly
    allocated array, [a += expr] and [a[i,:] *= k] write into the array the
    name refers to.  Anonymous temporaries of an expression are values. *)

Module Heap.

Abbreviation loc := nat.
Abbreviation store := (gmap nat (list (list Q))).

(** A computation reads and writes the store and may raise. *)
Definition M (A : Type) : Type := store -> result A * store.

#[global] Instance M_ret : MRet M := fun A a σ => (Ok a, σ).
#[global] Instance M_bind : MBind M := fun A B k m σ =>
  match m σ with
  | (Ok a, σ') => k a σ'
  | (Err e, σ') => (Err e, σ')
  end.

(** A new array object holding [g]. *)
Definition alloc (g : grid) : M loc :=
  fun σ => let l := fresh (dom σ) in (Ok l, <[l:=g]> σ).

(** The contents of the array a reference points to. *)
Definition load (l : loc) : M grid :=
  fun σ => (Ok (default [] (σ !! l)), σ).

(** Overwrite the contents of an existing array in place. *)
Definition store_at (l : loc) (g : grid) : M unit :=
  fun σ => (Ok tt, <[l:=g]> σ).

Definition lift {A : Type} (r : result A) : M A := fun σ => (r, σ).

(** [for x in xs: body] *)
Fixpoint for_each {X : Type} (xs : list X) (body : X -> M unit) : M unit :=
  match xs with
  | [] => mret tt
  | x :: xs' => body x;; for_each xs' body
  end.

(** [a[i,:] *= k] and [a[:,j] *= k] on the object [a]. *)
Definition imul_row_at (a : loc) (i : Z) (k : Q) : M unit :=
  w ← load a; w' ← lift (imul_row i k w); store_at a w'.
Definition imul_col_at (a : loc) (j : Z) (k : Q) : M unit :=
  w ← load a; w' ← lift (imul_col j k w); store_at a w'.

(** Steps 1-4 of the loop body; [dem] and [water] are the references the
    names hold on entry, the result is the reference [water] holds after
    [water = np.clip(water - infiltration_m, 0, None)]. *)
Definition body_heap (dem : loc) (rps : Q) (cfg : config) (water : loc)
  : M loc :=
  (* water += rain_per_step *)
  w ← load water; store_at water (add_scalar w rps);;
  (* H = dem + water *)
  d ← load dem; w ← load water; H ← alloc (add d w);
  (* flux = np.zeros_like(H) *)
  h ← load H; flux ← alloc (zeros_like h);
  for_each neighbours (fun '(di, dj) =>
    (* shifted = np.roll(np.roll(H, di, axis=0), dj, axis=1) *)
    h ← load H; shifted ← alloc (shift2 di dj h);
    (* dH = H - shifted *)
    h ← load H; s ← load shifted; dH ← alloc (sub h s);
    (* flux += np.clip(dH, 0, None) *)
    x ← load dH; f ← load flux; store_at flux (add f (clip_lo 0 x)));;
  (* moved = 0.2 * flux *)
  f ← load flux; moved ← alloc (scale (2 # 10) f);
  (* water = np.clip(water - moved, 0, None) *)
  w ← load water; m ← load moved; water ← alloc (clip_lo 0 (sub w m));
  for_each neighbours (fun '(di, dj) =>
    (* water += 0.05 * np.roll(np.roll(moved, -di, axis=0), -dj, axis=1) *)
    m ← load moved; w ← load water;
    store_at water (add w (scale (5 # 100) (shift2 (- di) (- dj) m))));;
  (* water = np.clip(water - infiltration_m, 0, None) *)
  w ← load water;
  alloc (clip_lo 0 (sub_scalar w (infiltration_m cfg))).

(** Step 5: the four border statements, each in place. *)
Definition edge_heap (water : loc) : M unit :=
  imul_row_at water 0 (7 # 10);; imul_row_at water (-1) (7 # 10);;
  imul_col_at water 0 (7 # 10);; imul_col_at water (-1) (7 # 10).

(** One iteration of the loop; the result is the reference [water] holds
    at its end. *)
Definition step_heap (dem : loc) (rps : Q) (cfg : config) (water : loc)
  : M loc :=
  water' ← body_heap dem rps cfg water;
  (if allow_edge_outflow cfg then edge_heap water' else mret tt);;
  mret water'.

Fixpoint run_heap (n : nat) (dem : loc) (rps : Q) (cfg : config) (water : loc)
  : M loc :=
  match n with
  | O => mret water
  | S n' => water' ← step_heap dem rps cfg water; run_heap n' dem rps cfg water'
  end.

(** [simulate] given a reference to the elevation array; returns the
    reference held by [water] at [return water]. *)
Definition simulate_heap (dem : loc) (cfg : config) : M loc :=
  d ← load dem; water ← alloc (zeros_like d);
  rps ← lift (rain_per_step cfg);
  run_heap (Z.to_nat (steps cfg)) dem rps cfg water.

(** [wp m σ Q]: running [m] from [σ] ends in an outcome and store that
    satisfy [Q]. *)
Definition wp {A : Type} (m : M A) (σ : store)
  (Q : result A -> store -> Prop) : Prop :=
  Q (m σ).1 (m σ).2.

End Heap.

(** * Properties of the arrays and of the substeps *)

(** ** Shapes and cell-wise predicates *)

Section Shapes.

Lemma rect_same_shape rows cols a b :
  rect rows cols a -> rect rows cols b -> same_shape a b.
Proof.
  intros [Ha Fa] [Hb Fb]. unfold same_shape.
  revert rows b Ha Hb Fb. induction Fa as [|x a Hx Fa IH]; intros rows b Ha Hb Fb.
  - destruct b; [constructor | simpl in *; lia].
  - destruct b as [|y b]; [simpl in *; lia |].
    inversion Fb; subst. constructor; [congruence |].
    apply (IH (length a)); auto; simpl in *; lia.
Qed.

Lemma same_shape_refl a : same_shape a a.
Proof. induction a; constructor; auto. Qed.

Lemma same_shape_sym a b : same_shape a b -> same_shape b a.
Proof. induction 1; constructor; auto. Qed.

Lemma same_shape_trans a b c :
  same_shape a b -> same_shape b c -> same_shape a c.
Proof.
  unfold same_shape. intros H. revert c.
  induction H as [|x y a b Hxy _ IH]; intros c Hc; inversion Hc; subst;
    constructor; [congruence | apply IH; assumption].
Qed.

Lemma same_shape_rect rows cols a b :
  same_shape a b -> rect rows cols a -> rect rows cols b.
Proof.
  intros H [Hl Ha]. split.
  - rewrite <- Hl. symmetry. eapply Forall2_length; eauto.
  - clear Hl. induction H; inversion Ha; subst; constructor; [congruence | auto].
Qed.

Lemma same_shape_map1_l f a : same_shape (map1 f a) a.
Proof.
  unfold map1. induction a; constructor; auto. apply length_map.
Qed.

Lemma same_shape_zeros_like a : same_shape (zeros_like a) a.
Proof. apply (same_shape_map1_l (fun _ => 0)). Qed.

Lemma same_shape_map2_l f a b : same_shape a b -> same_shape (map2 f a b) a.
Proof.
  unfold map2. induction 1 as [|x y a b Hxy _ IH]; simpl; constructor; auto.
  rewrite length_zip_with. lia.
Qed.

Lemma length_roll1 {A} k (l : list A) : length (roll1 k l) = length l.
Proof.
  unfold roll1. destruct (length l) as [|n] eqn:E; [exact E |].
  rewrite length_app, length_drop, length_take. lia.
Qed.

Lemma Forall_roll1 {A} (P : A -> Prop) k l : Forall P l -> Forall P (roll1 k l).
Proof.
  intros H. unfold roll1. destruct (length l); [exact H |].
  apply Forall_app. split; [apply Forall_drop | apply Forall_take]; exact H.
Qed.

Lemma same_shape_roll k axis a cols :
  Forall (fun r => length r = cols) a ->
  Forall (fun r => length r = cols) (roll k axis a).
Proof.
  intros H. destruct axis; simpl.
  - apply Forall_roll1, H.
  - induction H; simpl; constructor; auto. rewrite length_roll1. auto.
Qed.

Lemma rect_roll k axis rows cols a :
  rect rows cols a -> rect rows cols (roll k axis a).
Proof.
  intros [Hl Ha]. split; [| apply same_shape_roll, Ha].
  destruct axis; simpl; [rewrite length_roll1 | rewrite length_map]; exact Hl.
Qed.

Lemma rect_shift2 di dj rows cols a :
  rect rows cols a -> rect rows cols (shift2 di dj a).
Proof. intros H. unfold shift2. auto using rect_roll. Qed.

Lemma rect_map1 f rows cols a : rect rows cols a -> rect rows cols (map1 f a).
Proof. apply same_shape_rect, same_shape_sym, same_shape_map1_l. Qed.

Lemma rect_map2 f rows cols a b :
  rect rows cols a -> rect rows cols b -> rect rows cols (map2 f a b).
Proof.
  intros Ha Hb. eapply same_shape_rect; [| exact Ha].
  apply same_shape_sym, same_shape_map2_l. eapply rect_same_shape; eauto.
Qed.

End Shapes.

Section Cellwise.

Lemma all_map1 (P R : Q -> Prop) f g :
  (forall x, P x -> R (f x)) -> all P g -> all R (map1 f g).
Proof.
  intros Hf H. unfold all, map1. apply Forall_map.
  eapply Forall_impl; [exact H |]. intros r Hr. apply Forall_map.
  eapply Forall_impl; [exact Hr | exact Hf].
Qed.

Lemma Forall_zip_with2 (P R S : Q -> Prop) f (a b : list Q) :
  (forall x y, P x -> R y -> S (f x y)) ->
  Forall P a -> Forall R b -> Forall S (zip_with f a b).
Proof.
  intros Hf Ha. revert b. induction Ha as [|x a Hx Ha IH]; intros b Hb; simpl.
  - constructor.
  - destruct Hb as [|y b Hy Hb]; constructor; auto.
Qed.

Lemma all_map2 (P R S : Q -> Prop) f a b :
  (forall x y, P x -> R y -> S (f x y)) ->
  all P a -> all R b -> all S (map2 f a b).
Proof.
  intros Hf Ha. unfold all, map2. revert b.
  induction Ha as [|x a Hx Ha IH]; intros b Hb; simpl.
  - constructor.
  - destruct Hb as [|y b Hy Hb]; constructor; auto.
    eapply Forall_zip_with2; eauto.
Qed.

Lemma all_roll (P : Q -> Prop) k axis g : all P g -> all P (roll k axis g).
Proof.
  intros H. destruct axis; simpl.
  - apply Forall_roll1, H.
  - unfold all. apply Forall_map. eapply Forall_impl; [exact H |].
    intros r Hr. apply Forall_roll1, Hr.
Qed.

Lemma all_shift2 (P : Q -> Prop) di dj g : all P g -> all P (shift2 di dj g).
Proof. intros H. unfold shift2. auto using all_roll. Qed.

Lemma all_impl (P R : Q -> Prop) g :
  (forall x, P x -> R x) -> all P g -> all R g.
Proof.
  intros HPR H. unfold all. eapply Forall_impl; [exact H |].
  intros r Hr. eapply Forall_impl; eauto.
Qed.

Lemma all_zeros_like (P : Q -> Prop) g : P 0 -> all P (zeros_like g).
Proof.
  intros H0. unfold all, zeros_like. apply Forall_map, Forall_forall.
  intros r _. apply Forall_map, Forall_forall. auto.
Qed.

Lemma all_clip_lo_nonneg g : nonneg (clip_lo 0 g).
Proof.
  unfold nonneg, clip_lo. apply (all_map1 (fun _ => True)).
  - intros x _. apply Q.le_max_r.
  - unfold all. apply Forall_forall. intros r _. apply Forall_forall. auto.
Qed.

Lemma all_cell (P : Q -> Prop) g r c :
  all P g -> (r < length g)%nat -> (c < length (nth r g []))%nat ->
  P (cell g r c).
Proof.
  intros H Hr Hc. unfold cell.
  assert (Hrow : Forall P (nth r g [])).
  { eapply Forall_forall in H; [exact H |]. apply list_elem_of_In, nth_In, Hr. }
  eapply Forall_forall in Hrow; [exact Hrow |].
  apply list_elem_of_In, nth_In, Hc.
Qed.

End Cellwise.

(** ** Sums *)

Section Sums.

Lemma row_sum_app a b : row_sum (a ++ b) == row_sum a + row_sum b.
Proof. induction a as [|x a IH]; simpl; [| rewrite IH]; ring. Qed.

Lemma sum_app a b : sum (a ++ b) == sum a + sum b.
Proof. induction a as [|x a IH]; simpl; [| rewrite IH]; ring. Qed.

Lemma row_sum_roll1 k l : row_sum (roll1 k l) == row_sum l.
Proof.
  unfold roll1. destruct (length l) as [|n]; [reflexivity |].
  set (m := (S n - _)%nat). rewrite row_sum_app.
  rewrite <- (take_drop m l) at 3. rewrite row_sum_app. ring.
Qed.

Lemma sum_roll k axis g : sum (roll k axis g) == sum g.
Proof.
  destruct axis; simpl.
  - unfold roll1. destruct (length g) as [|n]; [reflexivity |].
    set (m := (S n - _)%nat). rewrite sum_app.
    rewrite <- (take_drop m g) at 3. rewrite sum_app. ring.
  - induction g as [|r g IH]; simpl; [reflexivity |].
    rewrite IH, row_sum_roll1. reflexivity.
Qed.

Lemma sum_shift2 di dj g : sum (shift2 di dj g) == sum g.
Proof. unfold shift2. rewrite !sum_roll. reflexivity. Qed.

Lemma row_sum_scale k r : row_sum (map (fun x => k * x) r) == k * row_sum r.
Proof. induction r as [|x r IH]; simpl; [| rewrite IH]; ring. Qed.

Lemma sum_scale k g : sum (scale k g) == k * sum g.
Proof.
  unfold scale, map1. induction g as [|r g IH]; simpl; [ring |].
  rewrite IH, row_sum_scale. ring.
Qed.

Lemma row_sum_zip_plus a b :
  length a = length b ->
  row_sum (zip_with Qplus a b) == row_sum a + row_sum b.
Proof.
  revert b. induction a as [|x a IH]; intros [|y b] Hl; simpl in *; try lia.
  - ring.
  - rewrite IH by lia. ring.
Qed.

Lemma sum_add a b : same_shape a b -> sum (add a b) == sum a + sum b.
Proof.
  unfold add, map2. induction 1 as [|x y a b Hxy _ IH]; simpl; [ring |].
  rewrite IH, row_sum_zip_plus by exact Hxy. ring.
Qed.

Lemma row_sum_add_scalar k r :
  row_sum (map (fun x => x + k) r) == row_sum r + k * inject_Z (Z.of_nat (length r)).
Proof.
  induction r as [|x r IH].
  - simpl. ring.
  - cbn [map row_sum foldr length]. fold (row_sum (map (fun x => x + k) r)).
    fold (row_sum r). rewrite IH, Nat2Z.inj_succ. unfold Z.succ.
    rewrite inject_Z_plus. ring.
Qed.

(** Adding the scalar [k] to every cell of a [rows]x[cols] array adds
    [k * rows * cols] to its sum. *)
Lemma sum_add_scalar rows cols k g :
  rect rows cols g ->
  sum (add_scalar g k)
  == sum g + k * (inject_Z (Z.of_nat rows) * inject_Z (Z.of_nat cols)).
Proof.
  intros [Hl Hc]. subst rows. unfold add_scalar, map1.
  induction Hc as [|r g Hr _ IH].
  - simpl. ring.
  - cbn [map sum foldr length]. fold (sum (map (map (fun x => x + k)) g)).
    fold (sum g). rewrite IH, row_sum_add_scalar, Hr, Nat2Z.inj_succ.
    unfold Z.succ. rewrite inject_Z_plus. ring.
Qed.

(** [max(w - m, 0) = w - min(w, m)], summed over a row and over an array. *)
Lemma Qmax_sub_min w m : Qmax (w - m) 0 == w - Qmin w m.
Proof.
  destruct (Q.max_spec (w - m) 0) as [[H1 H2] | [H1 H2]];
    destruct (Q.min_spec w m) as [[H3 H4] | [H3 H4]];
    rewrite H2, H4; lra.
Qed.

Lemma row_sum_clip_sub a b :
  length a = length b ->
  row_sum (map (fun x => Qmax x 0) (zip_with Qminus a b))
  == row_sum a - row_sum (zip_with Qmin a b).
Proof.
  revert b. induction a as [|x a IH]; intros [|y b] Hl; simpl in *; try lia.
  - ring.
  - rewrite IH by lia. rewrite Qmax_sub_min. ring.
Qed.

Lemma sum_remove_outflow moved water :
  same_shape water moved ->
  sum (remove_outflow moved water) == sum water - sum (map2 Qmin water moved).
Proof.
  unfold remove_outflow, clip_lo, sub, map1, map2.
  induction 1 as [|x y a b Hxy _ IH]; simpl; [ring |].
  rewrite IH, row_sum_clip_sub by exact Hxy. ring.
Qed.

Lemma sum_zeros_like g : sum (zeros_like g) == 0.
Proof.
  unfold zeros_like. induction g as [|r g IH]; simpl; [reflexivity |].
  rewrite IH. assert (E : row_sum (map (fun _ => 0) r) == 0).
  { induction r as [|x r IHr]; simpl; [reflexivity | rewrite IHr; ring]. }
  rewrite E. ring.
Qed.

End Sums.

(** ** The flow substeps: shapes, signs and balance *)

Section Flow.

Variables rows cols : nat.

Lemma rect_zeros_like g : rect rows cols g -> rect rows cols (zeros_like g).
Proof. apply (rect_map1 (fun _ => 0)). Qed.

Lemma rect_flux_of H : rect rows cols H -> rect rows cols (flux_of H).
Proof.
  intros HH. unfold flux_of, neighbours. cbn [fold_left].
  unfold add, sub, clip_lo.
  repeat first [apply rect_map2 | apply rect_map1 | apply rect_shift2
               | apply rect_zeros_like | exact HH].
Qed.

Lemma rect_moved_of H : rect rows cols H -> rect rows cols (moved_of H).
Proof. intros HH. apply rect_map1, rect_flux_of, HH. Qed.

Lemma rect_redistribute moved water :
  rect rows cols moved -> rect rows cols water ->
  rect rows cols (redistribute moved water).
Proof.
  intros Hm Hw. unfold redistribute, neighbours. cbn [fold_left].
  unfold add, scale.
  repeat first [apply rect_map2 | apply rect_map1 | apply rect_shift2
               | exact Hm | exact Hw].
Qed.

Lemma rect_remove_outflow moved water :
  rect rows cols moved -> rect rows cols water ->
  rect rows cols (remove_outflow moved water).
Proof. intros Hm Hw. apply rect_map1, rect_map2; assumption. Qed.

Lemma rect_rain rps water : rect rows cols water -> rect rows cols (rain rps water).
Proof. apply rect_map1. Qed.

Lemma rect_surface dem water :
  rect rows cols dem -> rect rows cols water -> rect rows cols (surface dem water).
Proof. apply rect_map2. Qed.

Lemma rect_flow dem water :
  rect rows cols dem -> rect rows cols water -> rect rows cols (flow dem water).
Proof.
  intros Hd Hw. unfold flow.
  assert (Hm : rect rows cols (moved_of (surface dem water)))
    by auto using rect_moved_of, rect_surface.
  auto using rect_redistribute, rect_remove_outflow.
Qed.

Lemma rect_infiltrate infil water :
  rect rows cols water -> rect rows cols (infiltrate infil water).
Proof. intros Hw. apply rect_map1, rect_map1, Hw. Qed.

End Flow.

Section FlowSigns.

(** No outflow potential is negative: each term is clipped at zero. *)
Lemma nonneg_flux_of H : nonneg (flux_of H).
Proof.
  unfold flux_of, neighbours. cbn [fold_left]. unfold nonneg, add.
  repeat (apply (all_map2 (fun x => 0 <= x) (fun x => 0 <= x));
          [intros x y Hx Hy; lra | | apply all_clip_lo_nonneg]).
  apply all_zeros_like. lra.
Qed.

Lemma nonneg_moved_of H : nonneg (moved_of H).
Proof.
  unfold moved_of, scale, nonneg.
  eapply all_map1; [| apply nonneg_flux_of]. intros x Hx. simpl in Hx. nra.
Qed.

Lemma nonneg_redistribute moved water :
  nonneg moved -> nonneg water -> nonneg (redistribute moved water).
Proof.
  intros Hm Hw. unfold redistribute, neighbours. cbn [fold_left].
  unfold nonneg, add, scale.
  repeat (apply (all_map2 (fun x => 0 <= x) (fun x => 0 <= x));
          [intros x y Hx Hy; lra | |
           apply (all_map1 (fun x => 0 <= x));
           [intros x Hx; nra | apply all_shift2, Hm]]).
  exact Hw.
Qed.

(** After steps 1-3 no cell is negative, whatever the depths were before. *)
Lemma nonneg_flow dem water : nonneg (flow dem water).
Proof.
  unfold flow. apply nonneg_redistribute.
  - apply nonneg_moved_of.
  - apply all_clip_lo_nonneg.
Qed.

Lemma nonneg_infiltrate infil water : nonneg (infiltrate infil water).
Proof. apply all_clip_lo_nonneg. Qed.

End FlowSigns.

Section FlowBalance.

Lemma sum_redistribute rows cols moved water :
  rect rows cols moved -> rect rows cols water ->
  sum (redistribute moved water) == sum water + (2 # 10) * sum moved.
Proof.
  intros Hm Hw. unfold redistribute, neighbours. cbn [fold_left].
  assert (Hs : forall di dj, rect rows cols (scale (5 # 100) (shift2 di dj moved))).
  { intros di dj. apply rect_map1, rect_shift2, Hm. }
  assert (Ha : forall a b, rect rows cols a -> rect rows cols b ->
                           rect rows cols (add a b)).
  { intros a b. apply rect_map2. }
  rewrite !sum_add by (eapply rect_same_shape; eauto 10).
  rewrite !sum_scale, !sum_shift2. ring.
Qed.

(** Removal takes [min(depth, moved)] out of each cell; redistribution puts
    [4 * 0.05 * moved] back. *)
Lemma sum_flow rows cols dem water :
  rect rows cols dem -> rect rows cols water ->
  sum (flow dem water)
  == sum water - sum (map2 Qmin water (moved_of (surface dem water)))
     + (2 # 10) * sum (moved_of (surface dem water)).
Proof.
  intros Hd Hw. unfold flow. set (moved := moved_of (surface dem water)).
  assert (Hm : rect rows cols moved)
    by (apply rect_moved_of, rect_surface; assumption).
  rewrite (sum_redistribute rows cols) by auto using rect_remove_outflow.
  rewrite sum_remove_outflow by (eapply rect_same_shape; eauto).
  reflexivity.
Qed.

Lemma row_sum_Qle_map (f : Q -> Q) r :
  Forall (fun x => f x <= x) r -> row_sum (map f r) <= row_sum r.
Proof. induction 1 as [|x r Hx _ IH]; simpl; lra. Qed.

Lemma row_sum_Qeq_map (f : Q -> Q) r :
  Forall (fun x => f x == x) r -> row_sum (map f r) == row_sum r.
Proof. induction 1 as [|x r Hx _ IH]; simpl; [reflexivity | rewrite Hx, IH; reflexivity]. Qed.

Lemma sum_Qle_map1 (f : Q -> Q) g :
  all (fun x => f x <= x) g -> sum (map1 f g) <= sum g.
Proof.
  unfold all, map1. induction 1 as [|r g Hr _ IH]; simpl; [lra |].
  pose proof (row_sum_Qle_map f r Hr). lra.
Qed.

Lemma sum_Qeq_map1 (f : Q -> Q) g :
  all (fun x => f x == x) g -> sum (map1 f g) == sum g.
Proof.
  unfold all, map1. induction 1 as [|r g Hr _ IH]; simpl; [reflexivity |].
  rewrite (row_sum_Qeq_map f r Hr), IH. reflexivity.
Qed.

Lemma row_sum_nonneg r : Forall (fun x => 0 <= x) r -> 0 <= row_sum r.
Proof. induction 1 as [|x r Hx _ IH]; simpl; lra. Qed.

Lemma sum_nonneg g : nonneg g -> 0 <= sum g.
Proof.
  unfold nonneg, all. induction 1 as [|r g Hr _ IH]; simpl; [lra |].
  pose proof (row_sum_nonneg r Hr). lra.
Qed.

Lemma map1_map1 f h g : map1 f (map1 h g) = map1 (fun x => f (h x)) g.
Proof.
  unfold map1. rewrite map_map. apply map_ext. intros r. apply map_map.
Qed.

(** With nothing to infiltrate, step 4 leaves non-negative depths alone. *)
Lemma sum_infiltrate_zero infil water :
  infil == 0 -> nonneg water -> sum (infiltrate infil water) == sum water.
Proof.
  intros Hi Hw. unfold infiltrate, clip_lo, sub_scalar.
  rewrite map1_map1. apply sum_Qeq_map1.
  eapply all_impl; [| exact Hw]. intros x Hx. simpl in Hx.
  rewrite Q.max_l; lra.
Qed.

(** Infiltration never adds water to non-negative depths. *)
Lemma sum_infiltrate_le infil water :
  0 <= infil -> nonneg water -> sum (infiltrate infil water) <= sum water.
Proof.
  intros Hi Hw. unfold infiltrate, clip_lo, sub_scalar.
  rewrite map1_map1. apply sum_Qle_map1.
  eapply all_impl; [| exact Hw]. intros x Hx.
  simpl in Hx. apply Q.max_lub; lra.
Qed.

End FlowBalance.

(** ** Flat surfaces *)

Section Flat.

Lemma sum_all_zero g : uniform 0 g -> sum g == 0.
Proof.
  unfold uniform, all. induction 1 as [|r g Hr _ IH]; simpl; [reflexivity |].
  rewrite IH. assert (E : row_sum r == 0).
  { induction Hr as [|x r Hx _ IHr]; simpl; [reflexivity |].
    rewrite Hx, IHr. ring. }
  rewrite E. ring.
Qed.

Lemma uniform_add u v a b :
  uniform u a -> uniform v b -> uniform (u + v) (add a b).
Proof.
  apply all_map2. intros x y Hx Hy. simpl in *. rewrite Hx, Hy. reflexivity.
Qed.

Lemma uniform_Qeq u v g : u == v -> uniform u g -> uniform v g.
Proof.
  intros E. apply all_impl. intros x Hx. simpl in Hx. rewrite Hx. exact E.
Qed.

(** A surface of constant height has no outflow potential anywhere. *)
Lemma flux_of_uniform h H : uniform h H -> uniform 0 (flux_of H).
Proof.
  intros HH. unfold flux_of, neighbours. cbn [fold_left].
  assert (Hc : forall di dj, uniform 0 (clip_lo 0 (sub H (shift2 di dj H)))).
  { intros di dj. unfold clip_lo, sub.
    apply (all_map1 (fun x => x == 0)).
    - intros x Hx. rewrite Hx. apply Q.max_l. lra.
    - eapply all_map2; [| exact HH | apply all_shift2, HH].
      intros x y Hx Hy. simpl in *. rewrite Hx, Hy. ring. }
  assert (Ha : forall a b, uniform 0 a -> uniform 0 b -> uniform 0 (add a b)).
  { intros a b Ha Hb. apply (uniform_Qeq (0 + 0)); [ring |].
    apply uniform_add; assumption. }
  repeat (apply Ha; [| apply Hc]).
  apply all_zeros_like. reflexivity.
Qed.

Lemma moved_of_uniform h H : uniform h H -> uniform 0 (moved_of H).
Proof.
  intros HH. unfold moved_of, scale.
  eapply all_map1; [| apply (flux_of_uniform h), HH].
  intros x Hx. simpl in Hx. rewrite Hx. ring.
Qed.

Lemma remove_outflow_zero (P : Q -> Prop) moved water :
  (forall x y, x == y -> P x -> P y) ->
  uniform 0 moved -> all (fun x => 0 <= x /\ P x) water ->
  all P (remove_outflow moved water).
Proof.
  intros HP Hm Hw. unfold remove_outflow, clip_lo, sub.
  apply (all_map1 (fun x => 0 <= x /\ P x)).
  - intros x [Hx Px]. apply (HP x); [| exact Px].
    symmetry. apply Q.max_l. exact Hx.
  - eapply all_map2; [| exact Hw | exact Hm].
    intros x y [Hx Px] Hy. simpl in Hy.
    assert (E : x - y == x) by (rewrite Hy; ring).
    split; [lra | apply (HP x); [symmetry; exact E | exact Px]].
Qed.

Lemma redistribute_zero (P : Q -> Prop) moved water :
  (forall x y, x == y -> P x -> P y) ->
  uniform 0 moved -> all P water -> all P (redistribute moved water).
Proof.
  intros HP Hm Hw. unfold redistribute, neighbours. cbn [fold_left].
  unfold add, scale.
  repeat (apply (all_map2 P (fun x => x == 0));
          [intros x y Px Hy; apply (HP x); [rewrite Hy; ring | exact Px] | |
           apply (all_map1 (fun x => x == 0));
           [intros x Hx; rewrite Hx; ring | apply all_shift2, Hm]]).
  exact Hw.
Qed.

(** Where the surface is flat, steps 1-3 keep every property of the
    (non-negative) depths that respects [==]. *)
Lemma flow_zero (P : Q -> Prop) dem water :
  (forall x y, x == y -> P x -> P y) ->
  uniform 0 (moved_of (surface dem water)) ->
  all (fun x => 0 <= x /\ P x) water ->
  all P (flow dem water).
Proof.
  intros HP Hm Hw. unfold flow.
  apply redistribute_zero; auto. apply remove_outflow_zero; auto.
Qed.

Lemma uniform_rain w rps water :
  uniform w water -> uniform (w + rps) (rain rps water).
Proof.
  apply all_map1. intros x Hx. simpl in Hx. rewrite Hx. reflexivity.
Qed.

Lemma uniform_surface e w dem water :
  uniform e dem -> uniform w water -> uniform (e + w) (surface dem water).
Proof. apply uniform_add. Qed.

Lemma uniform_flow e w dem water :
  uniform e dem -> uniform w water -> 0 <= w -> uniform w (flow dem water).
Proof.
  intros Hd Hw H0. apply flow_zero.
  - intros x y E Hx. rewrite <- E. exact Hx.
  - apply (moved_of_uniform (e + w)), uniform_surface; assumption.
  - eapply all_impl; [| exact Hw]. intros x Hx. simpl in Hx.
    split; [lra | exact Hx].
Qed.

Lemma uniform_infiltrate w infil water :
  uniform w water -> uniform (Qmax (w - infil) 0) (infiltrate infil water).
Proof.
  intros Hw. unfold infiltrate, clip_lo, sub_scalar. rewrite map1_map1.
  eapply all_map1; [| exact Hw]. intros x Hx. simpl in Hx.
  rewrite Hx. reflexivity.
Qed.

Lemma uniform_zeros_like g : uniform 0 (zeros_like g).
Proof. apply all_zeros_like. reflexivity. Qed.

End Flat.

(** ** Reading cells *)

Section Cells.

Lemma at_cell_cell g r c x : at_cell g r c x -> cell g r c = x.
Proof.
  intros (row & Hr & Hc). unfold cell.
  rewrite (nth_lookup_Some _ _ _ _ Hr). apply nth_lookup_Some, Hc.
Qed.

Lemma rect_at_cell rows cols g r c :
  rect rows cols g -> (r < rows)%nat -> (c < cols)%nat ->
  at_cell g r c (cell g r c).
Proof.
  intros [Hl Hc] Hr Hcc.
  destruct (lookup_lt_is_Some_2 g r) as [row Hrow]; [lia |].
  assert (Hlen : length row = cols).
  { eapply Forall_forall in Hc; [exact Hc |]. eapply list_elem_of_lookup_2, Hrow. }
  destruct (lookup_lt_is_Some_2 row c) as [x Hx]; [lia |].
  exists row. split; [exact Hrow |]. rewrite Hx. f_equal. symmetry.
  apply at_cell_cell. exists row. auto.
Qed.

Lemma at_cell_alter_row f i g r c x :
  at_cell g r c x ->
  at_cell (alter (map f) i g) r c (if decide (r = i) then f x else x).
Proof.
  intros (row & Hr & Hc). destruct (decide (r = i)) as [-> | Hne].
  - exists (map f row). split.
    + rewrite list_lookup_alter_eq, Hr. reflexivity.
    + change (map f row) with (f <$> row). rewrite list_lookup_fmap, Hc.
      reflexivity.
  - exists row. split; [| exact Hc].
    rewrite list_lookup_alter_ne by congruence. exact Hr.
Qed.

Lemma at_cell_alter_col f j g r c x :
  at_cell g r c x ->
  at_cell (map (alter f j) g) r c (if decide (c = j) then f x else x).
Proof.
  intros (row & Hr & Hc). exists (alter f j row). split.
  - change (map (alter f j) g) with (alter f j <$> g).
    rewrite list_lookup_fmap, Hr. reflexivity.
  - destruct (decide (c = j)) as [-> | Hne].
    + rewrite list_lookup_alter_eq, Hc. reflexivity.
    + rewrite list_lookup_alter_ne by congruence. exact Hc.
Qed.

Lemma at_cell_map1 f g r c x : at_cell g r c x -> at_cell (map1 f g) r c (f x).
Proof.
  intros (row & Hr & Hc). exists (map f row). unfold map1. split.
  - change (map (map f) g) with (map f <$> g).
    rewrite list_lookup_fmap, Hr. reflexivity.
  - change (map f row) with (f <$> row). rewrite list_lookup_fmap, Hc.
    reflexivity.
Qed.

Lemma at_cell_map2 f a b r c x y :
  at_cell a r c x -> at_cell b r c y -> at_cell (map2 f a b) r c (f x y).
Proof.
  intros (ra & Hra & Hca) (rb & Hrb & Hcb). exists (zip_with f ra rb).
  unfold map2. split.
  - rewrite lookup_zip_with, Hra. simpl. rewrite Hrb. reflexivity.
  - rewrite lookup_zip_with, Hca. simpl. rewrite Hcb. reflexivity.
Qed.

End Cells.

(** ** Edge outflow *)

Section EdgeOutflow.

Lemma py_index_first n : (0 < n)%nat -> py_index n 0 = Ok 0%nat.
Proof. intros H. unfold py_index. rewrite decide_True by lia. reflexivity. Qed.

Lemma py_index_last n : (0 < n)%nat -> py_index n (-1) = Ok (n - 1)%nat.
Proof.
  intros H. unfold py_index. rewrite decide_False by lia.
  rewrite decide_True by lia. f_equal. lia.
Qed.

Lemma py_index_empty i : py_index 0 i = Err IndexError.
Proof. unfold py_index. rewrite !decide_False by (simpl; lia). reflexivity. Qed.

Lemma ncols_rect rows cols g :
  rect rows cols g -> (0 < rows)%nat -> ncols g = cols.
Proof.
  intros [Hl Hc] Hr. destruct g as [|r g]; [simpl in Hl; lia |].
  inversion Hc; subst. reflexivity.
Qed.

Lemma rect_alter_row f i rows cols g :
  rect rows cols g -> rect rows cols (alter (map f) i g).
Proof.
  intros [Hl Hc]. split; [rewrite length_alter; exact Hl |].
  apply Forall_alter; [exact Hc |]. intros x _ Hx. rewrite length_map. exact Hx.
Qed.

Lemma rect_alter_col f j rows cols g :
  rect rows cols g -> rect rows cols (map (alter f j) g).
Proof.
  intros [Hl Hc]. split; [rewrite length_map; exact Hl |].
  apply Forall_map. eapply Forall_impl; [exact Hc |].
  intros r Hr. simpl. rewrite length_alter. exact Hr.
Qed.

(** On a non-empty array the border step cannot fail. *)
Lemma edge_outflow_ok rows cols g :
  rect rows cols g -> (0 < rows)%nat -> (0 < cols)%nat ->
  edge_outflow g = Ok (edge_scaled rows cols g).
Proof.
  intros Hg Hr Hc. unfold edge_outflow, edge_scaled, imul_row, imul_col.
  destruct Hg as [Hl Hf].
  rewrite Hl, py_index_first by exact Hr. simpl.
  rewrite length_alter, Hl, py_index_last by exact Hr. simpl.
  set (g2 := alter _ (rows - 1)%nat _).
  assert (H2 : rect rows cols g2).
  { apply rect_alter_row, rect_alter_row. split; assumption. }
  rewrite (ncols_rect rows cols g2 H2 Hr), py_index_first by exact Hc. simpl.
  rewrite (ncols_rect rows cols _ (rect_alter_col _ _ _ _ _ H2) Hr).
  rewrite py_index_last by exact Hc. reflexivity.
Qed.

(** With zero rows, or zero columns, the first indexing statement that
    meets the empty axis raises. *)
Lemma edge_outflow_no_rows : edge_outflow [] = Err IndexError.
Proof. reflexivity. Qed.

Lemma edge_outflow_no_cols rows g :
  rect rows 0 g -> edge_outflow g = Err IndexError.
Proof.
  intros Hg. destruct (decide (rows = 0%nat)) as [-> | Hr].
  - destruct Hg as [Hl _]. destruct g; [reflexivity | discriminate Hl].
  - unfold edge_outflow, imul_row. destruct Hg as [Hl Hf].
    rewrite Hl, py_index_first by lia. simpl.
    rewrite length_alter, Hl, py_index_last by lia. simpl.
    unfold imul_col. rewrite (ncols_rect rows 0).
    + reflexivity.
    + apply rect_alter_row, rect_alter_row. split; assumption.
    + lia.
Qed.

Lemma rect_edge_scaled rows cols g :
  rect rows cols g -> rect rows cols (edge_scaled rows cols g).
Proof.
  intros Hg. unfold edge_scaled.
  auto using rect_alter_row, rect_alter_col.
Qed.

Lemma all_edge_scaled (P : Q -> Prop) rows cols g :
  (forall x, P x -> P (x * (7 # 10))) -> all P g ->
  all P (edge_scaled rows cols g).
Proof.
  intros HP Hg. unfold edge_scaled, all.
  assert (Hrow : forall i a, all P a -> all P (alter (map (fun x => x * (7 # 10))) i a)).
  { intros i a Ha. apply Forall_alter; [exact Ha |]. intros r _ Hr.
    apply Forall_map. eapply Forall_impl; [exact Hr | exact HP]. }
  assert (Hcol : forall j a, all P a -> all P (map (alter (fun x => x * (7 # 10)) j) a)).
  { intros j a Ha. apply Forall_map. eapply Forall_impl; [exact Ha |].
    intros r Hr. simpl. apply Forall_alter; [exact Hr |]. intros x _. apply HP. }
  apply Hcol, Hcol, Hrow, Hrow, Hg.
Qed.

(** Each border statement multiplies the cells of its row or column by
    [0.7]; a cell is multiplied once for every statement that covers it. *)
Lemma edge_scaled_cell rows cols g r c :
  rect rows cols g -> (r < rows)%nat -> (c < cols)%nat ->
  cell (edge_scaled rows cols g) r c
  == cell g r c * (7 # 10) ^ Z.of_nat (edge_hits rows cols r c).
Proof.
  intros Hg Hr Hc. pose proof (rect_at_cell _ _ _ _ _ Hg Hr Hc) as Hat.
  set (k := fun x : Q => x * (7 # 10)).
  apply (at_cell_alter_row k 0%nat) in Hat.
  apply (at_cell_alter_row k (rows - 1)%nat) in Hat.
  apply (at_cell_alter_col k 0%nat) in Hat.
  apply (at_cell_alter_col k (cols - 1)%nat) in Hat.
  apply at_cell_cell in Hat. unfold edge_scaled. fold k. rewrite Hat.
  unfold edge_hits, k.
  repeat destruct (decide _); simpl; ring.
Qed.

Lemma row_sum_alter_le f i r :
  Forall (fun x => f x <= x) r -> row_sum (alter f i r) <= row_sum r.
Proof.
  intros H. revert i. induction H as [|x r Hx _ IH]; intros [|i];
    cbn [alter list_alter row_sum foldr]; try cbv beta in Hx; try lra.
  specialize (IH i). unfold row_sum in IH. lra.
Qed.

Lemma sum_alter_row_le f i g :
  all (fun x => f x <= x) g -> sum (alter (map f) i g) <= sum g.
Proof.
  unfold all. intros H. revert i.
  induction H as [|r g Hr _ IH]; intros [|i];
    cbn [alter list_alter sum foldr]; try lra.
  - pose proof (row_sum_Qle_map f r Hr). lra.
  - specialize (IH i). unfold sum in IH. lra.
Qed.

Lemma sum_alter_col_le f j g :
  all (fun x => f x <= x) g -> sum (map (alter f j) g) <= sum g.
Proof.
  unfold all. induction 1 as [|r g Hr _ IH]; simpl; [lra |].
  pose proof (row_sum_alter_le f j r Hr). lra.
Qed.

(** Edge outflow never adds water to non-negative depths. *)
Lemma sum_edge_scaled_le rows cols g :
  nonneg g -> sum (edge_scaled rows cols g) <= sum g.
Proof.
  intros Hg. unfold edge_scaled.
  set (k := fun x : Q => x * (7 # 10)).
  assert (Hk : forall a, nonneg a -> all (fun x => k x <= x) a).
  { intros a. apply all_impl. intros x Hx. unfold k. simpl in Hx. lra. }
  assert (Hn : forall a, nonneg a -> forall x, 0 <= x -> 0 <= k x).
  { intros _ _ x Hx. unfold k. lra. }
  assert (N1 : nonneg (alter (map k) 0%nat g)).
  { apply Forall_alter; [exact Hg |]. intros r _ Hr.
    apply Forall_map. eapply Forall_impl; [exact Hr |]. intros x. apply (Hn g Hg). }
  assert (N2 : nonneg (alter (map k) (rows - 1)%nat (alter (map k) 0%nat g))).
  { apply Forall_alter; [exact N1 |]. intros r _ Hr.
    apply Forall_map. eapply Forall_impl; [exact Hr |]. intros x. apply (Hn g Hg). }
  assert (N3 : nonneg (map (alter k 0%nat)
                         (alter (map k) (rows - 1)%nat (alter (map k) 0%nat g)))).
  { apply Forall_map. eapply Forall_impl; [exact N2 |]. intros r Hr. simpl.
    apply Forall_alter; [exact Hr |]. intros x _. apply (Hn g Hg). }
  eapply Qle_trans; [apply sum_alter_col_le, Hk, N3 |].
  eapply Qle_trans; [apply sum_alter_col_le, Hk, N2 |].
  eapply Qle_trans; [apply sum_alter_row_le, Hk, N1 |].
  apply sum_alter_row_le, Hk, Hg.
Qed.

(** Whenever the border step returns, it has kept non-negative depths
    non-negative (on any array, empty axes included). *)
Lemma edge_outflow_nonneg g w :
  edge_outflow g = Ok w -> nonneg g -> nonneg w.
Proof.
  set (k := fun x : Q => x * (7 # 10)).
  assert (Hrow : forall i a, nonneg a -> nonneg (alter (map k) i a)).
  { intros i a Ha. apply Forall_alter; [exact Ha |]. intros r _ Hr.
    apply Forall_map. eapply Forall_impl; [exact Hr |].
    intros x Hx. unfold k. simpl in *. lra. }
  assert (Hcol : forall j a, nonneg a -> nonneg (map (alter k j) a)).
  { intros j a Ha. apply Forall_map. eapply Forall_impl; [exact Ha |].
    intros r Hr. simpl. apply Forall_alter; [exact Hr |].
    intros x _ Hx. unfold k. lra. }
  unfold edge_outflow, imul_row, imul_col. fold k. intros E Hg.
  destruct (py_index (length g) 0) as [i1 | ]; [| discriminate E].
  simpl in E.
  destruct (py_index (length (alter (map k) i1 g)) (-1)) as [i2 | ];
    [| discriminate E].
  simpl in E.
  destruct (py_index (ncols (alter (map k) i2 (alter (map k) i1 g))) 0)
    as [j1 | ]; [| discriminate E].
  simpl in E.
  destruct (py_index _ (-1)) as [j2 | ]; [| discriminate E].
  simpl in E. injection E as <-. auto.
Qed.

End EdgeOutflow.

(** ** Periodic neighbours *)

Section Periodic.

Lemma wrap_spec n i shift :
  (i < n)%nat ->
  let s := Z.to_nat (shift mod Z.of_nat n) in
  (s < n)%nat /\
  wrap n i shift = if decide (i < s)%nat then (n - s + i)%nat else (i - s)%nat.
Proof.
  intros Hi s. unfold wrap.
  assert (Hn : (0 < Z.of_nat n)%Z) by lia.
  pose proof (Z.mod_pos_bound shift (Z.of_nat n) Hn) as Hs.
  split; [unfold s; lia |].
  rewrite <- Zminus_mod_idemp_r.
  destruct (decide (i < s)%nat) as [Hlt | Hge]; unfold s in *.
  - rewrite <- (Z.mod_unique (Z.of_nat i - shift mod Z.of_nat n) (Z.of_nat n)
                 (-1) (Z.of_nat n - shift mod Z.of_nat n + Z.of_nat i)); lia.
  - rewrite Z.mod_small; lia.
Qed.

Lemma roll1_lookup {A} shift (l : list A) i :
  (i < length l)%nat -> roll1 shift l !! i = l !! wrap (length l) i shift.
Proof.
  intros Hi. destruct (wrap_spec (length l) i shift Hi) as [Hs Hw].
  rewrite Hw. unfold roll1. destruct (length l) as [|n] eqn:E; [lia |].
  set (s := Z.to_nat (shift mod Z.of_nat (S n))) in *.
  destruct (decide (i < s)%nat) as [Hlt | Hge].
  - rewrite lookup_app_l by (rewrite length_drop; lia).
    rewrite lookup_drop. reflexivity.
  - rewrite lookup_app_r by (rewrite length_drop; lia).
    rewrite length_drop, lookup_take_lt by lia. f_equal. lia.
Qed.

Lemma wrap_lt n i shift : (i < n)%nat -> (wrap n i shift < n)%nat.
Proof.
  intros Hi. unfold wrap.
  pose proof (Z.mod_pos_bound (Z.of_nat i - shift) (Z.of_nat n)). lia.
Qed.

(** [shifted[r][c] = H[(r - di) mod rows][(c - dj) mod cols]] *)
Lemma at_cell_shift2 rows cols di dj H r c :
  rect rows cols H -> (r < rows)%nat -> (c < cols)%nat ->
  at_cell (shift2 di dj H) r c (cell H (wrap rows r di) (wrap cols c dj)).
Proof.
  intros HH Hr Hc.
  pose proof (rect_at_cell rows cols H (wrap rows r di) (wrap cols c dj) HH
                (wrap_lt _ _ _ Hr) (wrap_lt _ _ _ Hc)) as (row & Hrow & Hx).
  destruct HH as [Hl Hf].
  assert (Hlen : length row = cols).
  { eapply Forall_forall in Hf; [exact Hf |]. eapply list_elem_of_lookup_2, Hrow. }
  exists (roll1 dj row). unfold shift2, roll. split.
  - change (map (roll1 dj) (roll1 di H)) with (roll1 dj <$> roll1 di H).
    rewrite list_lookup_fmap, roll1_lookup, Hl, Hrow by lia. reflexivity.
  - rewrite roll1_lookup, Hlen by lia. exact Hx.
Qed.

End Periodic.

(** ** One step and whole runs *)

Section Steps.

Lemma step_edge_flag dem rps cfg water :
  step dem rps cfg water
  = if allow_edge_outflow cfg
    then edge_outflow (before_edge dem rps cfg water)
    else Ok (before_edge dem rps cfg water).
Proof. reflexivity. Qed.

Lemma step_no_edge dem rps cfg water :
  allow_edge_outflow cfg = false ->
  step dem rps cfg water = Ok (before_edge dem rps cfg water).
Proof. intros E. unfold step. rewrite E. reflexivity. Qed.

Lemma rect_before_edge rows cols dem rps cfg water :
  rect rows cols dem -> rect rows cols water ->
  rect rows cols (before_edge dem rps cfg water).
Proof.
  intros Hd Hw. unfold before_edge.
  auto using rect_infiltrate, rect_flow, rect_rain.
Qed.

Lemma step_edge rows cols dem rps cfg water :
  rect rows cols dem -> rect rows cols water ->
  (0 < rows)%nat -> (0 < cols)%nat ->
  allow_edge_outflow cfg = true ->
  step dem rps cfg water
  = Ok (edge_scaled rows cols (before_edge dem rps cfg water)).
Proof.
  intros Hd Hw Hr Hc E. unfold step. rewrite E.
  apply edge_outflow_ok; auto. apply rect_before_edge; assumption.
Qed.

(** On a non-empty terrain one step always succeeds, keeps the shape and
    ends with no negative depth. *)
Lemma step_total rows cols dem rps cfg water :
  rect rows cols dem -> rect rows cols water ->
  (0 < rows)%nat -> (0 < cols)%nat ->
  exists water', step dem rps cfg water = Ok water'
                 /\ rect rows cols water' /\ nonneg water'.
Proof.
  intros Hd Hw Hr Hc.
  pose proof (rect_before_edge rows cols dem rps cfg water Hd Hw) as Hb.
  assert (Hn : nonneg (before_edge dem rps cfg water))
    by apply nonneg_infiltrate.
  destruct (allow_edge_outflow cfg) eqn:E.
  - eexists. split; [apply (step_edge rows cols); assumption |].
    split; [apply rect_edge_scaled, Hb |].
    apply all_edge_scaled; [| exact Hn]. intros x Hx. lra.
  - eexists. split; [apply step_no_edge, E |]. auto.
Qed.

Lemma run_total rows cols dem rps cfg n : forall water,
  rect rows cols dem -> rect rows cols water ->
  (0 < rows)%nat -> (0 < cols)%nat ->
  exists water', run n dem rps cfg water = Ok water'
                 /\ rect rows cols water'
                 /\ (nonneg water -> nonneg water').
Proof.
  induction n as [|n IH]; intros water Hd Hw Hr Hc.
  - exists water. simpl. auto.
  - destruct (step_total rows cols dem rps cfg water Hd Hw Hr Hc)
      as (w1 & E1 & R1 & N1).
    destruct (IH w1 Hd R1 Hr Hc) as (w2 & E2 & R2 & N2).
    exists w2. cbn [run]. rewrite E1. simpl. auto.
Qed.

Lemma run_S_nonneg rows cols dem rps cfg n water :
  rect rows cols dem -> rect rows cols water ->
  (0 < rows)%nat -> (0 < cols)%nat ->
  exists water', run (S n) dem rps cfg water = Ok water'
                 /\ rect rows cols water' /\ nonneg water'.
Proof.
  intros Hd Hw Hr Hc.
  destruct (step_total rows cols dem rps cfg water Hd Hw Hr Hc)
    as (w1 & E1 & R1 & N1).
  destruct (run_total rows cols dem rps cfg n w1 Hd R1 Hr Hc)
    as (w2 & E2 & R2 & N2).
  exists w2. cbn [run]. rewrite E1. simpl. auto.
Qed.

(** Steps 1-4 of the body without infiltration and edge outflow: the sum
    changes by the rainfall, minus what removal takes, plus what
    redistribution hands out. *)
Lemma sum_before_edge rows cols dem rps cfg water :
  rect rows cols dem -> rect rows cols water ->
  infiltration_m cfg == 0 ->
  let wet := rain rps water in
  let moved := moved_of (surface dem wet) in
  sum (before_edge dem rps cfg water)
  == sum water + rps * cells rows cols
     + ((2 # 10) * sum moved - sum (map2 Qmin wet moved)).
Proof.
  intros Hd Hw Hi wet moved. unfold before_edge.
  rewrite sum_infiltrate_zero by (auto using nonneg_flow).
  fold wet.
  rewrite (sum_flow rows cols dem wet) by (unfold wet; auto using rect_rain).
  fold moved. assert (E : sum wet == sum water + rps * cells rows cols).
  { unfold wet, rain. rewrite (sum_add_scalar rows cols) by assumption.
    reflexivity. }
  rewrite E. ring.
Qed.

Lemma sum_min_zero wet moved :
  nonneg wet -> uniform 0 moved -> sum (map2 Qmin wet moved) == 0.
Proof.
  intros Hw Hm. apply sum_all_zero.
  eapply all_map2; [| exact Hw | exact Hm].
  intros x y Hx Hy. simpl in *. rewrite Hy. apply Q.min_r. exact Hx.
Qed.

Lemma le2_same_shape a b : le2 a b -> same_shape a b.
Proof.
  unfold le2, same_shape. induction 1 as [|x y a b Hxy _ IH]; constructor; auto.
  eapply Forall2_length, Hxy.
Qed.

Lemma le2_nonneg a b : nonneg a -> le2 a b -> nonneg b.
Proof.
  unfold nonneg, all, le2. intros Ha H. induction H as [|x y a b Hxy _ IH].
  - constructor.
  - inversion Ha as [|? ? Hx Ha']; subst. constructor; [| auto].
    clear IH Ha Ha'. induction Hxy as [|u v x y Huv _ IH]; [constructor |].
    inversion Hx; subst. constructor; [lra | auto].
Qed.

(** When every cell holds at least what is scheduled to leave it, removal
    takes exactly [moved] out. *)
Lemma sum_min_le2 moved water :
  le2 moved water -> sum (map2 Qmin water moved) == sum moved.
Proof.
  unfold le2, map2. induction 1 as [|x y a b Hxy _ IH]; simpl; [reflexivity |].
  rewrite IH. assert (E : row_sum (zip_with Qmin y x) == row_sum x).
  { clear IH. induction Hxy as [|u v x y Huv _ IH]; simpl; [reflexivity |].
    rewrite IH, Q.min_r by exact Huv. reflexivity. }
  rewrite E. reflexivity.
Qed.

(** A step that returns leaves no negative depth, on any arrays. *)
Lemma step_nonneg dem rps cfg water water' :
  step dem rps cfg water = Ok water' -> nonneg water'.
Proof.
  rewrite step_edge_flag. intros E.
  pose proof (nonneg_infiltrate (infiltration_m cfg) (flow dem (rain rps water)))
    as Hn. fold (before_edge dem rps cfg water) in Hn.
  destruct (allow_edge_outflow cfg).
  - eapply edge_outflow_nonneg; eauto.
  - injection E as <-. exact Hn.
Qed.

Lemma run_nonneg dem rps cfg n : forall water water',
  nonneg water -> run n dem rps cfg water = Ok water' -> nonneg water'.
Proof.
  induction n as [|n IH]; intros water water' Hw E; cbn [run] in E.
  - injection E as <-. exact Hw.
  - destruct (step dem rps cfg water) as [w1 | e] eqn:E1; [| discriminate E].
    simpl in E. eapply IH; [| exact E]. eapply step_nonneg, E1.
Qed.

End Steps.

(** ** Reasoning about the store model *)

Section HeapRules.

Import Heap.

Lemma wp_ret {A} (a : A) σ Q : Q (Ok a) σ -> wp (mret a) σ Q.
Proof. exact id. Qed.

Lemma wp_bind {A B} (m : M A) (k : A -> M B) σ Q :
  wp m σ (fun r σ' =>
            match r with
            | Ok a => wp (k a) σ' Q
            | Err e => Q (Err e) σ'
            end) ->
  wp (m ≫= k) σ Q.
Proof.
  unfold wp, mbind, M_bind. destruct (m σ) as [[a | e] σ']; simpl; exact id.
Qed.

Lemma wp_load l σ g Q : σ !! l = Some g -> Q (Ok g) σ -> wp (load l) σ Q.
Proof. intros E H. unfold wp, load. rewrite E. exact H. Qed.

Lemma wp_alloc g σ Q :
  (forall l, σ !! l = None -> Q (Ok l) (<[l:=g]> σ)) -> wp (alloc g) σ Q.
Proof.
  intros H. unfold wp, alloc. simpl. apply H.
  apply not_elem_of_dom, is_fresh.
Qed.

Lemma wp_store_at l g σ Q : Q (Ok tt) (<[l:=g]> σ) -> wp (store_at l g) σ Q.
Proof. exact id. Qed.

Lemma wp_lift {A} (r : result A) σ Q : Q r σ -> wp (lift r) σ Q.
Proof. exact id. Qed.

Lemma wp_mono {A} (m : M A) σ (Q Q' : result A -> store -> Prop) :
  (forall r σ', Q r σ' -> Q' r σ') -> wp m σ Q -> wp m σ Q'.
Proof. intros H. unfold wp. apply H. Qed.

(** What was allocated stays allocated through allocation of a fresh
    reference. *)
Lemma lookup_insert_fresh (σ : store) l k g v :
  σ !! l = None -> σ !! k = Some v -> <[l:=g]> σ !! k = Some v.
Proof.
  intros Hl Hk. rewrite lookup_insert_ne; [exact Hk |]. congruence.
Qed.

Lemma fresh_above (σ0 σ : store) l : σ0 ⊆ σ -> σ !! l = None -> σ0 !! l = None.
Proof. intros Hs Hl. eapply lookup_weaken_None; eauto. Qed.

End HeapRules.

Section HeapSpecs.

Import Heap.

Ltac solve_lookup :=
  repeat first
    [ rewrite lookup_insert_eq
    | rewrite lookup_insert_ne by congruence ];
  first [ reflexivity | eassumption ].

Ltac split_fresh H :=
  repeat match type of H with
         | <[_:=_]> _ !! _ = None =>
             apply lookup_insert_None in H; destruct H as [H ?]
         end.

Ltac wp_go :=
  repeat (cbv beta iota;
          lazymatch goal with
          | |- wp (mbind _ _) _ _ => apply wp_bind
          | |- wp (load _) _ _ => eapply wp_load; [solve_lookup |]
          | |- wp (alloc _) _ _ =>
              let l := fresh "l" in
              let Hl := fresh "Hl" in
              apply wp_alloc; intros l Hl; split_fresh Hl
          | |- wp (store_at _ _) _ _ => apply wp_store_at
          | |- wp (lift _) _ _ => apply wp_lift
          | |- wp (mret _) _ _ => apply wp_ret
          end).

Ltac pure_bind :=
  repeat match goal with
         | |- context [@mbind result result_bind ?A ?B ?f (Ok ?a)] =>
             change (@mbind result result_bind A B f (Ok a)) with (f a);
             cbv beta
         | |- context [@mbind result result_bind ?A ?B ?f (Err ?e)] =>
             change (@mbind result result_bind A B f (Err e))
               with (@Err B e)
         end.

Ltac solve_frame :=
  repeat (apply insert_subseteq_r;
          [ first [ assumption | eapply fresh_above; eassumption ] |]);
  assumption.

Variables (σ0 : store) (dem : loc) (d : grid).
Hypothesis Hdem0 : σ0 !! dem = Some d.

Lemma body_heap_spec rps cfg σ water w :
  σ0 ⊆ σ -> σ !! water = Some w -> σ0 !! water = None ->
  wp (body_heap dem rps cfg water) σ
    (fun r σ' => exists l,
         r = Ok l /\ σ0 ⊆ σ' /\ σ0 !! l = None
         /\ σ' !! l = Some (before_edge d rps cfg w)).
Proof.
  intros Hsub Hw Hp.
  assert (Hd : σ !! dem = Some d) by (eapply lookup_weaken; eauto).
  unfold body_heap, neighbours. cbn [for_each].
  wp_go.
  eexists. split; [reflexivity |]. split; [solve_frame |].
  split; [eapply fresh_above; eassumption |].
  rewrite lookup_insert_eq. reflexivity.
Qed.

Lemma edge_heap_spec σ water w :
  σ0 ⊆ σ -> σ !! water = Some w -> σ0 !! water = None ->
  wp (edge_heap water) σ
    (fun r σ' =>
       σ0 ⊆ σ'
       /\ match edge_outflow w with
          | Ok w' => r = Ok tt /\ σ' !! water = Some w'
          | Err e => r = Err e
          end).
Proof.
  intros Hsub Hw Hp. unfold edge_heap, imul_row_at, imul_col_at, edge_outflow.
  wp_go. destruct (imul_row 0 (7 # 10) w) as [w1 | e1]; pure_bind; [| auto].
  wp_go. destruct (imul_row (-1) (7 # 10) w1) as [w2 | e2]; pure_bind;
    [| split; [solve_frame | reflexivity]].
  wp_go. destruct (imul_col 0 (7 # 10) w2) as [w3 | e3]; pure_bind;
    [| split; [solve_frame | reflexivity]].
  wp_go. destruct (imul_col (-1) (7 # 10) w3) as [w4 | e4];
    [| split; [solve_frame | reflexivity]].
  wp_go. split; [solve_frame |]. split; [reflexivity |].
  rewrite lookup_insert_eq. reflexivity.
Qed.

(** One iteration on the store computes what [step] computes, into an
    array that did not exist before the call, and writes to no array that
    did. *)
Lemma step_heap_spec rps cfg σ water w :
  σ0 ⊆ σ -> σ !! water = Some w -> σ0 !! water = None ->
  wp (step_heap dem rps cfg water) σ
    (fun r σ' =>
       σ0 ⊆ σ'
       /\ match step d rps cfg w with
          | Ok w' => exists l, r = Ok l /\ σ0 !! l = None /\ σ' !! l = Some w'
          | Err e => r = Err e
          end).
Proof.
  intros Hsub Hw Hp. unfold step_heap. apply wp_bind.
  eapply wp_mono; [| apply (body_heap_spec rps cfg σ water w); assumption].
  intros r σ1 (l & -> & Hsub1 & Hp1 & Hl1). rewrite step_edge_flag.
  apply wp_bind. destruct (allow_edge_outflow cfg).
  - eapply wp_mono; [| apply (edge_heap_spec σ1 l _ Hsub1 Hl1 Hp1)].
    intros r σ2 [Hsub2 Hr]. cbv beta in Hr.
    destruct (edge_outflow (before_edge d rps cfg w)) as [w' | e].
    + destruct Hr as [-> Hl2]. apply wp_ret. eauto.
    + subst r. auto.
  - apply wp_ret, wp_ret. eauto.
Qed.

Lemma run_heap_spec rps cfg n : forall σ water w,
  σ0 ⊆ σ -> σ !! water = Some w -> σ0 !! water = None ->
  wp (run_heap n dem rps cfg water) σ
    (fun r σ' =>
       σ0 ⊆ σ'
       /\ match run n d rps cfg w with
          | Ok w' => exists l, r = Ok l /\ σ0 !! l = None /\ σ' !! l = Some w'
          | Err e => r = Err e
          end).
Proof.
  induction n as [|n IH]; intros σ water w Hsub Hw Hp; cbn [run_heap run].
  - apply wp_ret. eauto.
  - apply wp_bind.
    eapply wp_mono; [| apply (step_heap_spec rps cfg σ water w); assumption].
    intros r σ1 [Hsub1 Hr]. cbv beta in Hr.
    destruct (step d rps cfg w) as [w1 | e]; simpl.
    + destruct Hr as (l & -> & Hp1 & Hl1). apply IH; assumption.
    + subst r. auto.
Qed.

(** [simulate] on the store: the outcome is that of the pure [simulate]
    on the contents of [dem], the returned reference is new, and no array
    that existed before the call has changed. *)
Lemma simulate_heap_spec cfg :
  wp (simulate_heap dem cfg) σ0
    (fun r σ' =>
       σ0 ⊆ σ'
       /\ match simulate d cfg with
          | Ok w' => exists l, r = Ok l /\ σ0 !! l = None /\ σ' !! l = Some w'
          | Err e => r = Err e
          end).
Proof.
  unfold simulate_heap, simulate.
  apply wp_bind. eapply wp_load; [exact Hdem0 |].
  apply wp_bind, wp_alloc. intros l Hl.
  assert (Hsub : σ0 ⊆ <[l:=zeros_like d]> σ0)
    by (apply insert_subseteq_r; [exact Hl | reflexivity]).
  apply wp_bind, wp_lift.
  destruct (rain_per_step cfg) as [rps | e]; simpl; [| auto].
  apply run_heap_spec; [exact Hsub | apply lookup_insert_eq | exact Hl].
Qed.

End HeapSpecs.

(** * The specification's properties *)

(** On constant terrain a single 50 mm step with no losses leaves
    [0.05 * rows * cols] metres in total. *)
Lemma single_step_flat rows cols dem cfg e :
  rect rows cols dem -> uniform e dem ->
  steps cfg = 1%Z -> rainfall_mm cfg == 50 ->
  infiltration_m cfg == 0 -> allow_edge_outflow cfg = false ->
  exists w, simulate dem cfg = Ok w /\ sum w == (5 # 100) * cells rows cols.
Proof.
  intros Hd He Hs Hr Hi Ho. unfold simulate, rain_per_step.
  rewrite Hs. simpl. rewrite step_no_edge by exact Ho.
  eexists. split; [reflexivity |].
  set (rps := rainfall_mm cfg / 1000 / inject_Z 1).
  assert (Erps : rps == 5 # 100) by (unfold rps; rewrite Hr; reflexivity).
  rewrite (sum_before_edge rows cols) by (auto using rect_zeros_like).
  assert (Hwet : uniform (0 + rps) (rain rps (zeros_like dem)))
    by apply uniform_rain, uniform_zeros_like.
  assert (Hm : uniform 0 (moved_of (surface dem (rain rps (zeros_like dem))))).
  { eapply moved_of_uniform, uniform_surface; eauto. }
  rewrite sum_min_zero, (sum_all_zero _ Hm), sum_zeros_like, Erps; [ring | | exact Hm].
  eapply all_impl; [| exact Hwet]. intros x Hx. simpl in Hx. lra.
Qed.

(** C1 (amended).  With [infiltration_m = 0] and edge outflow disabled, a
    step on any terrain and any depth grid succeeds, and
    - when no cell has outflow potential after rainfall and no depth is
      negative, the flow substeps change the total by exactly zero and the
      sum of depths after the step is the sum before plus the rainfall
      added ([rps] per cell);
    - when no cell is scheduled to lose more than it holds
      ([moved = 0.2 * flux <= depth] after rainfall, at every cell), the
      sum after the step does not exceed the sum before plus the rainfall;
    - the single 50 mm step on a terrain of constant elevation yields
      [0.05 * rows * cols] in total. *)
Theorem step_water_balance rows cols dem water rps cfg :
  rect rows cols dem -> rect rows cols water ->
  infiltration_m cfg == 0 -> allow_edge_outflow cfg = false ->
  let wet := rain rps water in
  let moved := moved_of (surface dem wet) in
  (exists water',
      step dem rps cfg water = Ok water'
      /\ (nonneg wet -> uniform 0 moved ->
          sum (flow dem wet) - sum wet == 0
          /\ sum water' == sum water + rps * cells rows cols)
      /\ (le2 moved wet ->
          sum water' <= sum water + rps * cells rows cols))
  /\ (forall e, uniform e dem -> steps cfg = 1%Z -> rainfall_mm cfg == 50 ->
      exists w, simulate dem cfg = Ok w
                /\ sum w == (5 # 100) * cells rows cols).
Proof.
  intros Hd Hw Hi Ho wet moved.
  pose proof (sum_before_edge rows cols dem rps cfg water Hd Hw Hi) as Hb.
  cbv zeta in Hb. fold wet in Hb. fold moved in Hb.
  split.
  - exists (before_edge dem rps cfg water).
    split; [apply step_no_edge, Ho |]. split.
    + intros Hn Hm. split.
      * rewrite (sum_flow rows cols dem wet)
          by (unfold wet; auto using rect_rain).
        fold moved. rewrite sum_min_zero, (sum_all_zero _ Hm) by assumption.
        ring.
      * rewrite Hb, sum_min_zero, (sum_all_zero _ Hm) by assumption. ring.
    + intros Hle. rewrite Hb, sum_min_le2 by exact Hle.
      pose proof (sum_nonneg moved (nonneg_moved_of _)). lra.
  - intros e He Hs Hr. eapply single_step_flat; eauto.
Qed.

(** C1 as the specification states it fails on [dem_bump]: one 50 mm step
    from the dry grid ends with 0.31 m in total, not [0.05 * 2 * 2 = 0.2]. *)
Lemma step_water_balance_counterexample :
  (exists w,
      simulate dem_bump cfg_single_50 = Ok w
      /\ sum w == 31 # 100
      /\ ~ sum w == (5 # 100) * cells 2 2)
  /\ (exists w,
         step dem_bump (5 # 100) cfg_single_50 (zeros_like dem_bump) = Ok w
         /\ ~ sum w == sum (zeros_like dem_bump) + (5 # 100) * cells 2 2)
  /\ ~ sum (flow dem_bump (rain (5 # 100) (zeros_like dem_bump)))
       - sum (rain (5 # 100) (zeros_like dem_bump)) == 0.
Proof.
  split; [| split].
  - eexists. split; [vm_compute; reflexivity |].
    split; [vm_compute; reflexivity |]. vm_compute. discriminate.
  - eexists. split; [vm_compute; reflexivity |]. vm_compute. discriminate.
  - vm_compute. discriminate.
Qed.

Lemma step_water_balance_witness :
  rect 1 2 dem_ridge /\ rect 1 2 [[1; 1]]
  /\ infiltration_m cfg_single_50 == 0
  /\ allow_edge_outflow cfg_single_50 = false
  /\ le2 (moved_of (surface dem_ridge (rain (5 # 100) [[1; 1]])))
         (rain (5 # 100) [[1; 1]])
  /\ exists water',
      step dem_ridge (5 # 100) cfg_single_50 [[1; 1]] = Ok water'
      /\ sum water' <= sum [[1; 1]] + (5 # 100) * cells 1 2.
Proof.
  assert (Hd : rect 1 2 dem_ridge) by (split; [reflexivity | repeat constructor]).
  assert (Hw : rect 1 2 [[1; 1]]) by (split; [reflexivity | repeat constructor]).
  assert (Hi : infiltration_m cfg_single_50 == 0) by reflexivity.
  assert (Ho : allow_edge_outflow cfg_single_50 = false) by reflexivity.
  assert (Hle : le2 (moved_of (surface dem_ridge (rain (5 # 100) [[1; 1]])))
                  (rain (5 # 100) [[1; 1]])).
  { vm_compute. repeat constructor; discriminate. }
  repeat (split; [assumption |]).
  destruct (step_water_balance 1 2 dem_ridge [[1; 1]] (5 # 100) cfg_single_50
              Hd Hw Hi Ho) as ((water' & E & _ & Hno) & _).
  exists water'. split; [exact E | exact (Hno Hle)].
Defined.

(** ** Constant terrain *)

Section FlatRuns.

Variables (rows cols : nat) (dem : grid) (e : Q).
Hypothesis Hdem : rect rows cols dem.
Hypothesis Hflat : uniform e dem.

(** On constant terrain under a constant, non-negative depth nothing
    flows: the body adds the rain and takes the infiltration. *)
Lemma before_edge_flat rps cfg w water :
  uniform w water -> 0 <= w + rps ->
  uniform (Qmax (w + rps - infiltration_m cfg) 0) (before_edge dem rps cfg water).
Proof.
  intros Hw H0. unfold before_edge.
  apply uniform_infiltrate, (uniform_flow e); auto using uniform_rain.
Qed.

Lemma run_flat_no_loss rps cfg n : forall w water,
  rect rows cols water -> uniform w water -> 0 <= w -> 0 <= rps ->
  infiltration_m cfg == 0 -> allow_edge_outflow cfg = false ->
  exists water', run n dem rps cfg water = Ok water'
                 /\ rect rows cols water'
                 /\ uniform (w + inject_Z (Z.of_nat n) * rps) water'.
Proof.
  induction n as [|n IH]; intros w water Hr Hw H0 Hrps Hi Ho.
  - exists water. split; [reflexivity |]. split; [exact Hr |].
    eapply uniform_Qeq; [| exact Hw]. simpl. ring.
  - cbn [run]. rewrite step_no_edge by exact Ho. simpl.
    destruct (IH (w + rps) (before_edge dem rps cfg water)) as (w' & E & R & U);
      auto using rect_before_edge; try lra.
    + eapply uniform_Qeq; [| apply before_edge_flat; [exact Hw | lra]].
      rewrite Hi. rewrite Q.max_l; lra.
    + exists w'. split; [exact E |]. split; [exact R |].
      eapply uniform_Qeq; [| exact U].
      rewrite Nat2Z.inj_succ. unfold Z.succ. rewrite inject_Z_plus. ring.
Qed.

Lemma step_flat_dry rps cfg water :
  (0 < rows)%nat -> (0 < cols)%nat ->
  rect rows cols water -> uniform 0 water ->
  rps == 0 -> infiltration_m cfg == 0 ->
  exists water', step dem rps cfg water = Ok water'
                 /\ rect rows cols water' /\ uniform 0 water'.
Proof.
  intros Hr Hc Hw Hu Hrps Hi.
  assert (Hb : uniform 0 (before_edge dem rps cfg water)).
  { eapply uniform_Qeq; [| apply before_edge_flat; [exact Hu | lra]].
    rewrite Hi, Hrps. reflexivity. }
  pose proof (rect_before_edge rows cols dem rps cfg water Hdem Hw) as Rb.
  destruct (allow_edge_outflow cfg) eqn:Eo.
  - eexists. split; [apply (step_edge rows cols); assumption |].
    split; [apply rect_edge_scaled, Rb |].
    apply all_edge_scaled; [| exact Hb]. intros x Hx. rewrite Hx. reflexivity.
  - eexists. split; [apply step_no_edge, Eo |]. auto.
Qed.

Lemma run_flat_dry rps cfg n : forall water,
  (0 < rows)%nat -> (0 < cols)%nat ->
  rect rows cols water -> uniform 0 water ->
  rps == 0 -> infiltration_m cfg == 0 ->
  exists water', run n dem rps cfg water = Ok water'
                 /\ rect rows cols water' /\ uniform 0 water'.
Proof.
  induction n as [|n IH]; intros water Hr Hc Hw Hu Hrps Hi.
  - exists water. simpl. auto.
  - destruct (step_flat_dry rps cfg water) as (w1 & E1 & R1 & U1); auto.
    destruct (IH w1) as (w2 & E2 & R2 & U2); auto.
    exists w2. cbn [run]. rewrite E1. simpl. auto.
Qed.

End FlatRuns.

Lemma rain_per_step_zero cfg rps :
  rainfall_mm cfg == 0 -> rain_per_step cfg = Ok rps -> rps == 0.
Proof.
  unfold rain_per_step. intros H0 E. destruct (decide _); [discriminate |].
  injection E as <-. rewrite H0. reflexivity.
Qed.

Lemma rain_per_step_ok cfg :
  steps cfg <> 0%Z ->
  rain_per_step cfg = Ok (rainfall_mm cfg / 1000 / inject_Z (steps cfg)).
Proof. intros H. unfold rain_per_step. rewrite decide_False; auto. Qed.

(** C2 (amended).  On a terrain of constant elevation, with
    [rainfall_mm = 0] and [infiltration_m = 0], the run from the all-zero
    depth grid succeeds and every cell's depth is zero after every step
    and in the returned grid. *)
Theorem dry_flat_terrain_stays_dry rows cols dem e cfg :
  rect rows cols dem -> (0 < rows)%nat -> (0 < cols)%nat ->
  uniform e dem ->
  rainfall_mm cfg == 0 -> infiltration_m cfg == 0 -> (1 <= steps cfg)%Z ->
  exists rps,
    rain_per_step cfg = Ok rps
    /\ (forall n, exists w,
           run n dem rps cfg (zeros_like dem) = Ok w /\ uniform 0 w)
    /\ exists w, simulate dem cfg = Ok w /\ uniform 0 w.
Proof.
  intros Hd Hr Hc He H0 Hi Hs.
  exists (rainfall_mm cfg / 1000 / inject_Z (steps cfg)).
  assert (Erps : rain_per_step cfg
                 = Ok (rainfall_mm cfg / 1000 / inject_Z (steps cfg)))
    by (apply rain_per_step_ok; lia).
  assert (Hrun : forall n, exists w,
             run n dem (rainfall_mm cfg / 1000 / inject_Z (steps cfg)) cfg
               (zeros_like dem) = Ok w /\ uniform 0 w).
  { intros n.
    destruct (run_flat_dry rows cols dem e Hd He
                (rainfall_mm cfg / 1000 / inject_Z (steps cfg)) cfg n
                (zeros_like dem)) as (w & E & _ & U);
      auto using rect_zeros_like, uniform_zeros_like.
    - eapply rain_per_step_zero; eauto.
    - eauto. }
  split; [exact Erps |]. split; [exact Hrun |].
  unfold simulate. rewrite Erps. simpl. apply Hrun.
Qed.

(** C2 as stated fails on [dem_bump]: with no rain and no infiltration the
    first step already puts 0.08 m of water on two cells of the dry grid. *)
Lemma dry_terrain_counterexample :
  exists w,
    simulate dem_bump (cfg_dry 0 false) = Ok w
    /\ cell w 0 1 == 8 # 100 /\ cell w 1 0 == 8 # 100
    /\ ~ uniform 0 w.
Proof.
  eexists. split; [vm_compute; reflexivity |].
  split; [vm_compute; reflexivity |]. split; [vm_compute; reflexivity |].
  intros H. apply (all_cell _ _ 0 1) in H; [| simpl; lia | simpl; lia].
  vm_compute in H. discriminate H.
Qed.

Lemma dry_flat_terrain_stays_dry_witness :
  rect 2 2 (zeros_like dem_bump) /\ uniform 0 (zeros_like dem_bump)
  /\ exists w, simulate (zeros_like dem_bump) (cfg_dry 0 true) = Ok w
               /\ uniform 0 w.
Proof.
  assert (Hd : rect 2 2 (zeros_like dem_bump))
    by (split; [reflexivity | repeat constructor]).
  assert (Hu : uniform 0 (zeros_like dem_bump)) by apply uniform_zeros_like.
  split; [exact Hd |]. split; [exact Hu |].
  destruct (dry_flat_terrain_stays_dry 2 2 (zeros_like dem_bump) 0
              (cfg_dry 0 true) Hd) as (rps & _ & _ & H);
    [lia | lia | exact Hu | reflexivity | reflexivity | simpl; lia | exact H].
Defined.

Lemma flat4_run :
  exists w, simulate dem_flat4 cfg_flat4 = Ok w
            /\ rect 4 4 w /\ uniform (1 # 10) w.
Proof.
  assert (Hd : rect 4 4 dem_flat4) by (split; [reflexivity | repeat constructor]).
  assert (Hu : uniform 0 dem_flat4) by (repeat constructor).
  assert (Hrps : 0 <= 100 / 1000 / inject_Z 10) by (vm_compute; discriminate).
  assert (H0 : (0 : Q) <= 0) by apply Qle_refl.
  assert (Hi : infiltration_m cfg_flat4 == 0) by reflexivity.
  assert (Ho : allow_edge_outflow cfg_flat4 = false) by reflexivity.
  destruct (run_flat_no_loss 4 4 dem_flat4 0 Hd Hu (100 / 1000 / inject_Z 10)
              cfg_flat4 10 0 (zeros_like dem_flat4)
              (rect_zeros_like 4 4 _ Hd) (uniform_zeros_like _) H0 Hrps Hi Ho)
    as (w & E & R & U).
  exists w. split; [exact E |]. split; [exact R |].
  eapply uniform_Qeq; [| exact U]. reflexivity.
Qed.

(** C7 (amended).  The 4x4 flat scenario (100 mm over 10 steps, no
    infiltration, no edge outflow) ends with every cell at exactly 0.1 m:
    each step adds [100 / 1000 / 10 = 0.01] m and nothing flows. *)
Theorem flat4_scenario_depth :
  exists w, simulate dem_flat4 cfg_flat4 = Ok w
            /\ rect 4 4 w
            /\ all (fun x => x == 1 # 10) w
            /\ sum w == 16 # 10.
Proof.
  destruct flat4_run as (w & E & R & U).
  exists w. split; [exact E |]. split; [exact R |]. split; [exact U |].
  destruct R as [Hl Hc].
  do 5 (destruct w as [|? w]; try discriminate Hl).
  unfold uniform, all in U.
  repeat match goal with
         | H : Forall _ (_ :: _) |- _ => inversion H; subst; clear H
         | H : length ?r = 4%nat |- _ =>
             do 5 (destruct r as [|? r]; try discriminate H); clear H
         end.
  cbn [sum row_sum foldr].
  repeat match goal with H : _ == _ |- _ => rewrite H; clear H end.
  reflexivity.
Qed.

(** C7 as stated fails: no cell is within 0.01 m of the claimed 0.01 m;
    every cell is 0.09 m above it. *)
Lemma flat4_scenario_counterexample :
  exists w, simulate dem_flat4 cfg_flat4 = Ok w
            /\ all (fun x => x - (1 # 100) == 9 # 100) w
            /\ ~ Qabs (cell w 0 0 - (1 # 100)) <= 1 # 100.
Proof.
  destruct flat4_run as (w & E & R & U).
  exists w. split; [exact E |]. split.
  - eapply all_impl; [| exact U]. intros x Hx. simpl in Hx. rewrite Hx.
    reflexivity.
  - assert (H00 : cell w 0 0 == 1 # 10).
    { apply (all_cell _ _ 0 0) in U; [exact U | |].
      - destruct R as [Hl _]. lia.
      - destruct R as [Hl Hc]. destruct w as [|r w]; [discriminate Hl |].
        inversion Hc; subst. simpl. lia. }
    rewrite H00. vm_compute. intros H. apply H. reflexivity.
Qed.

(** C6.  For every terrain and every configuration with non-negative
    rainfall and infiltration, starting from the all-zero grid no cell's
    depth is negative after any number of steps, nor in the returned
    grid; and on a non-empty terrain with [steps >= 1] the run does
    return. *)
Theorem depth_never_negative rows cols dem cfg :
  0 <= rainfall_mm cfg -> 0 <= infiltration_m cfg ->
  (forall n rps w,
      rain_per_step cfg = Ok rps ->
      run n dem rps cfg (zeros_like dem) = Ok w -> nonneg w)
  /\ (forall w, simulate dem cfg = Ok w -> nonneg w)
  /\ (rect rows cols dem -> (0 < rows)%nat -> (0 < cols)%nat ->
      (1 <= steps cfg)%Z ->
      exists rps,
        rain_per_step cfg = Ok rps
        /\ (forall n, exists w,
               run n dem rps cfg (zeros_like dem) = Ok w /\ nonneg w)
        /\ exists w, simulate dem cfg = Ok w /\ nonneg w).
Proof.
  intros _ _.
  assert (Hz : nonneg (zeros_like dem)) by (apply all_zeros_like; lra).
  split; [| split].
  - intros n rps w _ E. eapply run_nonneg; eauto.
  - intros w E. unfold simulate in E.
    destruct (rain_per_step cfg) as [rps | e]; [| discriminate E].
    simpl in E. eapply run_nonneg; eauto.
  - intros Hd Hr Hc Hs.
    exists (rainfall_mm cfg / 1000 / inject_Z (steps cfg)).
    assert (Erps : rain_per_step cfg
                   = Ok (rainfall_mm cfg / 1000 / inject_Z (steps cfg)))
      by (apply rain_per_step_ok; lia).
    assert (Hrun : forall n, exists w,
               run n dem (rainfall_mm cfg / 1000 / inject_Z (steps cfg)) cfg
                 (zeros_like dem) = Ok w /\ nonneg w).
    { intros n.
      destruct (run_total rows cols dem
                  (rainfall_mm cfg / 1000 / inject_Z (steps cfg)) cfg n
                  (zeros_like dem)) as (w & E & _ & N);
        auto using rect_zeros_like. eauto. }
    split; [exact Erps |]. split; [exact Hrun |].
    unfold simulate. rewrite Erps. simpl. apply Hrun.
Qed.

Lemma depth_never_negative_witness :
  rect 2 2 dem_bump /\ 0 <= rainfall_mm default_config
  /\ 0 <= infiltration_m default_config
  /\ exists w, simulate dem_bump default_config = Ok w /\ nonneg w.
Proof.
  assert (Hd : rect 2 2 dem_bump) by (split; [reflexivity | repeat constructor]).
  assert (H1 : 0 <= rainfall_mm default_config) by (vm_compute; discriminate).
  assert (H2 : 0 <= infiltration_m default_config) by (vm_compute; discriminate).
  repeat (split; [assumption |]).
  destruct (depth_never_negative 2 2 dem_bump default_config H1 H2)
    as (_ & _ & Hex).
  destruct Hex as (rps & _ & _ & H); [exact Hd | lia | lia | simpl; lia | exact H].
Defined.

(** ** Infiltration without rainfall *)

Lemma step_no_rain_total_le rows cols dem rps cfg water :
  rect rows cols dem -> rect rows cols water ->
  (0 < rows)%nat -> (0 < cols)%nat ->
  rps == 0 -> 0 <= infiltration_m cfg ->
  le2 (moved_of (surface dem (rain rps water))) (rain rps water) ->
  exists water', step dem rps cfg water = Ok water' /\ sum water' <= sum water.
Proof.
  intros Hd Hw Hr Hc Hrps Hi Hle.
  set (wet := rain rps water) in *. set (moved := moved_of (surface dem wet)) in *.
  assert (Hwet : rect rows cols wet) by (apply rect_rain, Hw).
  assert (Nm : nonneg moved) by apply nonneg_moved_of.
  assert (Ewet : sum wet == sum water).
  { unfold wet, rain. rewrite (sum_add_scalar rows cols) by exact Hw.
    rewrite Hrps. ring. }
  assert (Hflow : sum (flow dem wet) <= sum water).
  { rewrite (sum_flow rows cols dem wet) by assumption. fold moved.
    rewrite sum_min_le2 by exact Hle. pose proof (sum_nonneg moved Nm). lra. }
  assert (Hb : sum (before_edge dem rps cfg water) <= sum water).
  { unfold before_edge. fold wet.
    eapply Qle_trans; [apply sum_infiltrate_le; [exact Hi | apply nonneg_flow] |].
    exact Hflow. }
  destruct (allow_edge_outflow cfg) eqn:Eo.
  - eexists. split; [apply (step_edge rows cols); assumption |].
    eapply Qle_trans; [apply sum_edge_scaled_le, nonneg_infiltrate | exact Hb].
  - eexists. split; [apply step_no_edge, Eo |]. exact Hb.
Qed.

(** C3 (amended).  With no rainfall and [infiltration_m >= 0], a step on a
    non-empty terrain does not increase the total depth provided no cell
    is scheduled to lose more than it holds, that is
    [moved = 0.2 * flux <= depth] at every cell. *)
Theorem total_depth_nonincreasing rows cols dem rps cfg water :
  rect rows cols dem -> rect rows cols water ->
  (0 < rows)%nat -> (0 < cols)%nat ->
  rps == 0 -> 0 <= infiltration_m cfg ->
  le2 (moved_of (surface dem (rain rps water))) (rain rps water) ->
  exists water',
    step dem rps cfg water = Ok water'
    /\ rect rows cols water' /\ nonneg water'
    /\ sum water' <= sum water.
Proof.
  intros Hd Hw Hr Hc Hrps Hi Hle.
  destruct (step_no_rain_total_le rows cols dem rps cfg water)
    as (w1 & E1 & L1); auto.
  destruct (step_total rows cols dem rps cfg water) as (w2 & E2 & R2 & N2); auto.
  rewrite E1 in E2. injection E2 as <-. eauto.
Qed.

(** C3 as stated fails on [dem_ridge]: with no rain and infiltration of
    0.002 m per step, the dry grid holds 0.076 m after one step. *)
Lemma total_depth_counterexample :
  exists w,
    simulate dem_ridge (cfg_dry (2 # 1000) false) = Ok w
    /\ step dem_ridge (0 / 1000 / inject_Z 1) (cfg_dry (2 # 1000) false)
         (zeros_like dem_ridge) = Ok w
    /\ sum (zeros_like dem_ridge) == 0
    /\ sum w == 76 # 1000
    /\ ~ sum w <= sum (zeros_like dem_ridge).
Proof.
  eexists. split; [vm_compute; reflexivity |].
  split; [vm_compute; reflexivity |]. split; [vm_compute; reflexivity |].
  split; [vm_compute; reflexivity |]. vm_compute. intros H. apply H. reflexivity.
Qed.

Lemma total_depth_nonincreasing_witness :
  rect 1 2 dem_ridge /\ rect 1 2 [[1; 1]]
  /\ 0 <= infiltration_m (cfg_dry (2 # 1000) true)
  /\ le2 (moved_of (surface dem_ridge (rain 0 [[1; 1]]))) (rain 0 [[1; 1]])
  /\ exists water',
      step dem_ridge 0 (cfg_dry (2 # 1000) true) [[1; 1]] = Ok water'
      /\ rect 1 2 water' /\ nonneg water'
      /\ sum water' <= sum [[1; 1]].
Proof.
  assert (Hd : rect 1 2 dem_ridge) by (split; [reflexivity | repeat constructor]).
  assert (Hw : rect 1 2 [[1; 1]]) by (split; [reflexivity | repeat constructor]).
  assert (Hi : 0 <= infiltration_m (cfg_dry (2 # 1000) true))
    by (vm_compute; discriminate).
  assert (Hle : le2 (moved_of (surface dem_ridge (rain 0 [[1; 1]])))
                  (rain 0 [[1; 1]])).
  { vm_compute. repeat constructor; discriminate. }
  repeat (split; [assumption |]).
  apply (total_depth_nonincreasing 1 2 dem_ridge 0 (cfg_dry (2 # 1000) true)
           [[1; 1]] Hd Hw); [lia | lia | reflexivity | exact Hi | exact Hle].
Defined.

(** ** Border cells *)

Lemma edge_scaled_interior rows cols g r c :
  rect rows cols g -> (0 < r < rows - 1)%nat -> (0 < c < cols - 1)%nat ->
  cell (edge_scaled rows cols g) r c = cell g r c.
Proof.
  intros Hg Hr Hc.
  assert (Hat : at_cell g r c (cell g r c))
    by (apply (rect_at_cell rows cols); [exact Hg | lia | lia]).
  set (k := fun x : Q => x * (7 # 10)).
  apply (at_cell_alter_row k 0%nat) in Hat.
  apply (at_cell_alter_row k (rows - 1)%nat) in Hat.
  apply (at_cell_alter_col k 0%nat) in Hat.
  apply (at_cell_alter_col k (cols - 1)%nat) in Hat.
  apply at_cell_cell in Hat. unfold edge_scaled. fold k. rewrite Hat.
  rewrite !decide_False by lia. reflexivity.
Qed.

(** C4 (amended).  When [allow_edge_outflow] is true the step ends with
    the edge-outflow substep, which on a non-empty grid succeeds, leaves
    every interior cell's depth unchanged and multiplies every border cell
    by 0.7 once for each border line (first row, last row, first column,
    last column) that contains it: by exactly 0.7 when the cell lies on
    one border line only. *)
Theorem edge_outflow_cells rows cols water :
  rect rows cols water -> (0 < rows)%nat -> (0 < cols)%nat ->
  (forall dem rps cfg w0,
      allow_edge_outflow cfg = true -> before_edge dem rps cfg w0 = water ->
      step dem rps cfg w0 = edge_outflow water)
  /\ exists water',
      edge_outflow water = Ok water'
      /\ rect rows cols water'
      /\ forall r c, (r < rows)%nat -> (c < cols)%nat ->
           cell water' r c
           == cell water r c * (7 # 10) ^ Z.of_nat (edge_hits rows cols r c)
           /\ ((0 < r < rows - 1)%nat -> (0 < c < cols - 1)%nat ->
               cell water' r c = cell water r c)
           /\ (edge_hits rows cols r c = 1%nat ->
               cell water' r c == cell water r c * (7 # 10)).
Proof.
  intros Hw Hr Hc. split.
  - intros dem rps cfg w0 Ho <-. rewrite step_edge_flag, Ho. reflexivity.
  - exists (edge_scaled rows cols water).
    split; [apply edge_outflow_ok; assumption |].
    split; [apply rect_edge_scaled, Hw |].
    intros r c Hrr Hcc.
    pose proof (edge_scaled_cell rows cols water r c Hw Hrr Hcc) as Hcell.
    split; [exact Hcell |]. split.
    + apply edge_scaled_interior, Hw.
    + intros H1. rewrite Hcell, H1. simpl. reflexivity.
Qed.

(** C4 as stated fails at the corners: on [ones3] the corner cell ends at
    0.49, not 0.7, while the edge cell next to it ends at 0.7. *)
Lemma edge_outflow_cells_counterexample :
  exists w,
    edge_outflow ones3 = Ok w
    /\ cell w 0 0 == 49 # 100
    /\ cell w 0 1 == 7 # 10
    /\ cell w 1 1 == 1
    /\ ~ cell w 0 0 == cell ones3 0 0 * (7 # 10).
Proof.
  eexists. split; [vm_compute; reflexivity |].
  repeat (split; [vm_compute; reflexivity |]). vm_compute. discriminate.
Qed.

Lemma edge_outflow_cells_witness :
  rect 3 3 ones3
  /\ exists water',
      edge_outflow ones3 = Ok water'
      /\ rect 3 3 water'
      /\ forall r c, (r < 3)%nat -> (c < 3)%nat ->
           cell water' r c
           == cell ones3 r c * (7 # 10) ^ Z.of_nat (edge_hits 3 3 r c)
           /\ ((0 < r < 3 - 1)%nat -> (0 < c < 3 - 1)%nat ->
               cell water' r c = cell ones3 r c)
           /\ (edge_hits 3 3 r c = 1%nat ->
               cell water' r c == cell ones3 r c * (7 # 10)).
Proof.
  assert (Hw : rect 3 3 ones3) by (split; [reflexivity | repeat constructor]).
  split; [exact Hw |].
  apply (edge_outflow_cells 3 3 ones3 Hw); lia.
Defined.

(** C5.  On a grid with at least two rows and two columns the edge-outflow
    substep multiplies each of the four corner cells by 0.49 (once by a row
    statement, once by a column statement) and every other border cell by
    0.7. *)
Theorem edge_outflow_corners rows cols water :
  rect rows cols water -> (2 <= rows)%nat -> (2 <= cols)%nat ->
  exists water',
    edge_outflow water = Ok water'
    /\ forall r c, (r < rows)%nat -> (c < cols)%nat ->
         let on_row_border := r = 0%nat \/ r = (rows - 1)%nat in
         let on_col_border := c = 0%nat \/ c = (cols - 1)%nat in
         (on_row_border /\ on_col_border ->
          cell water' r c == cell water r c * (49 # 100))
         /\ ((on_row_border /\ ~ on_col_border)
             \/ (~ on_row_border /\ on_col_border) ->
             cell water' r c == cell water r c * (7 # 10)).
Proof.
  intros Hw Hr Hc. exists (edge_scaled rows cols water).
  split; [apply edge_outflow_ok; [exact Hw | lia | lia] |].
  intros r c Hrr Hcc on_row on_col.
  pose proof (edge_scaled_cell rows cols water r c Hw Hrr Hcc) as Hcell.
  unfold on_row, on_col. split.
  - intros [Hrow Hcol]. rewrite Hcell.
    assert (E : edge_hits rows cols r c = 2%nat).
    { unfold edge_hits. repeat destruct (decide _); lia. }
    rewrite E. simpl. ring.
  - intros Hb. rewrite Hcell.
    assert (E : edge_hits rows cols r c = 1%nat).
    { unfold edge_hits. repeat destruct (decide _); lia. }
    rewrite E. simpl. ring.
Qed.

Lemma edge_outflow_corners_witness :
  rect 3 3 ones3
  /\ exists water',
      edge_outflow ones3 = Ok water'
      /\ forall r c, (r < 3)%nat -> (c < 3)%nat ->
           let on_row_border := r = 0%nat \/ r = (3 - 1)%nat in
           let on_col_border := c = 0%nat \/ c = (3 - 1)%nat in
           (on_row_border /\ on_col_border ->
            cell water' r c == cell ones3 r c * (49 # 100))
           /\ ((on_row_border /\ ~ on_col_border)
               \/ (~ on_row_border /\ on_col_border) ->
               cell water' r c == cell ones3 r c * (7 # 10)).
Proof.
  assert (Hw : rect 3 3 ones3) by (split; [reflexivity | repeat constructor]).
  split; [exact Hw |].
  apply (edge_outflow_corners 3 3 ones3 Hw); lia.
Defined.

(** ** Outflow potential, cell by cell *)

Lemma wrap_zero n i : (i < n)%nat -> wrap n i 0 = i.
Proof.
  intros Hi. unfold wrap. rewrite Z.sub_0_r, Z.mod_small by lia. lia.
Qed.

Lemma wrap_minus_one n i : (i < n)%nat -> wrap n i (-1) = ((i + 1) mod n)%nat.
Proof.
  intros Hi. unfold wrap.
  replace (Z.of_nat i - -1)%Z with (Z.of_nat (i + 1)) by lia.
  rewrite <- Nat2Z.inj_mod. apply Nat2Z.id.
Qed.

Lemma wrap_plus_one n i :
  (i < n)%nat -> wrap n i 1 = ((i + n - 1) mod n)%nat.
Proof.
  intros Hi. unfold wrap.
  replace (Z.of_nat i - 1)%Z with (Z.of_nat (i + n - 1) + (-1) * Z.of_nat n)%Z
    by lia.
  rewrite Z.mod_add by lia. rewrite <- Nat2Z.inj_mod. apply Nat2Z.id.
Qed.

Lemma flux_of_cell rows cols H r c :
  rect rows cols H -> (r < rows)%nat -> (c < cols)%nat ->
  let h := cell H r c in
  cell (flux_of H) r c
  = 0 + Qmax (h - cell H ((r + 1) mod rows) c) 0
      + Qmax (h - cell H ((r + rows - 1) mod rows) c) 0
      + Qmax (h - cell H r ((c + 1) mod cols)) 0
      + Qmax (h - cell H r ((c + cols - 1) mod cols)) 0.
Proof.
  intros HH Hr Hc h. apply at_cell_cell.
  pose proof (rect_at_cell rows cols H r c HH Hr Hc) as Hh. fold h in Hh.
  assert (Hs : forall di dj,
             at_cell (clip_lo 0 (sub H (shift2 di dj H))) r c
               (Qmax (h - cell H (wrap rows r di) (wrap cols c dj)) 0)).
  { intros di dj. unfold clip_lo, sub.
    apply (at_cell_map1 (fun x => Qmax x 0)), (at_cell_map2 Qminus); [exact Hh |].
    apply at_cell_shift2; assumption. }
  unfold flux_of, neighbours. cbn [fold_left]. unfold add.
  pose proof (Hs (-1)%Z 0%Z) as H1. pose proof (Hs 1%Z 0%Z) as H2.
  pose proof (Hs 0%Z (-1)%Z) as H3. pose proof (Hs 0%Z 1%Z) as H4.
  rewrite wrap_minus_one, wrap_zero in H1 by assumption.
  rewrite wrap_plus_one, wrap_zero in H2 by assumption.
  rewrite wrap_minus_one, wrap_zero in H3 by assumption.
  rewrite wrap_plus_one, wrap_zero in H4 by assumption.
  repeat (apply (at_cell_map2 Qplus); [| assumption]).
  apply (at_cell_map1 (fun _ => 0)) in Hh. exact Hh.
Qed.

Lemma remove_outflow_cell rows cols H wet r c :
  rect rows cols H -> rect rows cols wet -> (r < rows)%nat -> (c < cols)%nat ->
  cell (remove_outflow (moved_of H) wet) r c
  = Qmax (cell wet r c - (2 # 10) * cell (flux_of H) r c) 0.
Proof.
  intros HH Hw Hr Hc. apply at_cell_cell.
  unfold remove_outflow, clip_lo, sub, moved_of, scale.
  apply (at_cell_map1 (fun x => Qmax x 0)), (at_cell_map2 Qminus).
  - apply (rect_at_cell rows cols); assumption.
  - apply (at_cell_map1 (fun x => (2 # 10) * x)), (rect_at_cell rows cols);
      auto using rect_flux_of.
Qed.

Lemma surface_cell rows cols dem wet r c :
  rect rows cols dem -> rect rows cols wet -> (r < rows)%nat -> (c < cols)%nat ->
  cell (surface dem wet) r c = cell dem r c + cell wet r c.
Proof.
  intros Hd Hw Hr Hc. apply at_cell_cell. unfold surface, add.
  apply (at_cell_map2 Qplus); apply (rect_at_cell rows cols); assumption.
Qed.

(** C8.  After rainfall deposition the outflow potential of the cell
    [(r, c)] is the sum over the four axis-aligned directions of
    [max(0, surface[r][c] - surface[neighbour])], where the surface is
    elevation plus depth of the snapshot taken after rainfall and the
    neighbours wrap around the grid; removal then leaves
    [max(0, depth - 0.2 * potential)] in the cell, which is what
    redistribution starts from. *)
Theorem outflow_potential_cell rows cols dem wet r c :
  rect rows cols dem -> rect rows cols wet ->
  (r < rows)%nat -> (c < cols)%nat ->
  let H := surface dem wet in
  let h := cell H r c in
  h = cell dem r c + cell wet r c
  /\ cell (flux_of H) r c
     == Qmax 0 (h - cell H ((r + 1) mod rows) c)
        + Qmax 0 (h - cell H ((r + rows - 1) mod rows) c)
        + Qmax 0 (h - cell H r ((c + 1) mod cols))
        + Qmax 0 (h - cell H r ((c + cols - 1) mod cols))
  /\ cell (remove_outflow (moved_of H) wet) r c
     == Qmax 0 (cell wet r c - (2 # 10) * cell (flux_of H) r c)
  /\ 0 <= cell (remove_outflow (moved_of H) wet) r c
  /\ flow dem wet
     = redistribute (moved_of H) (remove_outflow (moved_of H) wet).
Proof.
  intros Hd Hw Hr Hc H h.
  assert (HH : rect rows cols H) by (apply rect_surface; assumption).
  split; [apply (surface_cell rows cols); assumption |].
  split; [| split; [| split; [| reflexivity]]].
  - rewrite (flux_of_cell rows cols H r c HH Hr Hc). cbv zeta. fold h.
    rewrite !(Q.max_comm 0). ring.
  - rewrite (remove_outflow_cell rows cols H wet r c HH Hw Hr Hc).
    apply Q.max_comm.
  - rewrite (remove_outflow_cell rows cols H wet r c HH Hw Hr Hc).
    apply Q.le_max_r.
Qed.

Lemma outflow_potential_cell_witness :
  rect 2 2 dem_bump /\ rect 2 2 (rain (5 # 100) (zeros_like dem_bump))
  /\ cell (flux_of (surface dem_bump (rain (5 # 100) (zeros_like dem_bump)))) 0 0
     == 4
  /\ cell (remove_outflow
             (moved_of (surface dem_bump (rain (5 # 100) (zeros_like dem_bump))))
             (rain (5 # 100) (zeros_like dem_bump))) 0 0
     == Qmax 0 (cell (rain (5 # 100) (zeros_like dem_bump)) 0 0
                - (2 # 10)
                  * cell (flux_of (surface dem_bump
                                     (rain (5 # 100) (zeros_like dem_bump)))) 0 0).
Proof.
  assert (Hd : rect 2 2 dem_bump) by (split; [reflexivity | repeat constructor]).
  assert (Hw : rect 2 2 (rain (5 # 100) (zeros_like dem_bump)))
    by (split; [reflexivity | repeat constructor]).
  split; [exact Hd |]. split; [exact Hw |].
  destruct (outflow_potential_cell 2 2 dem_bump
              (rain (5 # 100) (zeros_like dem_bump)) 0 0 Hd Hw)
    as (_ & Hflux & Hrem & _); [lia | lia |].
  split; [| exact Hrem]. rewrite Hflux. vm_compute. reflexivity.
Defined.

(** ** Configuration values the specification calls invalid *)

Lemma simulate_zero_steps dem cfg :
  steps cfg = 0%Z -> simulate dem cfg = Err ZeroDivisionError.
Proof.
  intros H. unfold simulate, rain_per_step. rewrite decide_True by exact H.
  reflexivity.
Qed.

Lemma simulate_negative_steps dem cfg :
  (steps cfg < 0)%Z -> simulate dem cfg = Ok (zeros_like dem).
Proof.
  intros H. unfold simulate. rewrite rain_per_step_ok by lia. simpl.
  replace (Z.to_nat (steps cfg)) with 0%nat by lia. reflexivity.
Qed.

(** C9 (amended).  [simulate] validates nothing.  With [steps = 0] it fails
    with [ZeroDivisionError] while computing the rain per step, before any
    step executes; with [steps < 0] it executes no step and returns the
    all-zero grid; with [steps >= 1] on a non-empty terrain it runs to the
    end and returns a grid of the terrain's shape, whatever the signs of
    rainfall and infiltration: no step can fail and the only division is
    by [steps]. *)
Theorem simulate_total_no_validation rows cols dem cfg :
  rect rows cols dem -> (0 < rows)%nat -> (0 < cols)%nat ->
  (steps cfg = 0%Z -> simulate dem cfg = Err ZeroDivisionError)
  /\ ((steps cfg < 0)%Z -> simulate dem cfg = Ok (zeros_like dem))
  /\ ((1 <= steps cfg)%Z ->
      exists rps w,
        rain_per_step cfg = Ok rps
        /\ simulate dem cfg = Ok w /\ rect rows cols w
        /\ forall n water, rect rows cols water ->
             exists water', run n dem rps cfg water = Ok water').
Proof.
  intros Hd Hr Hc. split; [apply simulate_zero_steps |].
  split; [apply simulate_negative_steps |].
  intros Hs. exists (rainfall_mm cfg / 1000 / inject_Z (steps cfg)).
  assert (Erps : rain_per_step cfg
                 = Ok (rainfall_mm cfg / 1000 / inject_Z (steps cfg)))
    by (apply rain_per_step_ok; lia).
  destruct (run_total rows cols dem
              (rainfall_mm cfg / 1000 / inject_Z (steps cfg)) cfg
              (Z.to_nat (steps cfg)) (zeros_like dem))
    as (w & E & R & _); auto using rect_zeros_like.
  exists w. split; [exact Erps |]. split.
  - unfold simulate. rewrite Erps. exact E.
  - split; [exact R |]. intros n water Hw.
    destruct (run_total rows cols dem
                (rainfall_mm cfg / 1000 / inject_Z (steps cfg)) cfg n water)
      as (w' & E' & _); auto. eauto.
Qed.

(** C9 as stated fails: invalid configurations are accepted.  A negative
    rainfall runs to the end and a negative step count returns the dry
    grid; neither raises anything. *)
Lemma simulate_validation_counterexample :
  ~ (forall dem cfg, invalid cfg -> fails (simulate dem cfg))
  /\ invalid cfg_negative_rain
  /\ (exists w, simulate dem_bump cfg_negative_rain = Ok w)
  /\ invalid cfg_negative_steps
  /\ simulate dem_bump cfg_negative_steps = Ok (zeros_like dem_bump).
Proof.
  assert (I1 : invalid cfg_negative_rain) by (left; reflexivity).
  assert (I2 : invalid cfg_negative_steps)
    by (right; right; simpl; lia).
  assert (E2 : simulate dem_bump cfg_negative_steps = Ok (zeros_like dem_bump))
    by (apply simulate_negative_steps; simpl; lia).
  split; [| split; [exact I1 | split; [| split; [exact I2 | exact E2]]]].
  - intros H. destruct (H dem_bump cfg_negative_steps I2) as [e He].
    rewrite E2 in He. discriminate He.
  - eexists. vm_compute. reflexivity.
Qed.

Lemma simulate_total_no_validation_witness :
  rect 2 2 dem_bump
  /\ simulate dem_bump (cfg_dry 0 true) <> Err ZeroDivisionError
  /\ exists rps w,
      rain_per_step cfg_negative_rain = Ok rps
      /\ simulate dem_bump cfg_negative_rain = Ok w /\ rect 2 2 w
      /\ forall n water, rect 2 2 water ->
           exists water', run n dem_bump rps cfg_negative_rain water = Ok water'.
Proof.
  assert (Hd : rect 2 2 dem_bump) by (split; [reflexivity | repeat constructor]).
  split; [exact Hd |]. split; [vm_compute; discriminate |].
  apply (simulate_total_no_validation 2 2 dem_bump cfg_negative_rain Hd);
    simpl; lia.
Defined.

(** ** The elevation array is read-only *)

(** C10.  Given a reference to an elevation array in any store, running
    [simulate] leaves that array, and every other array that existed
    before the call, with exactly the contents it had; when the run
    returns, the returned reference is not the elevation's (it did not
    exist before the call) and holds the depths that [simulate] computes
    from the elevations; when the run raises, so does [simulate], with the
    same error. *)
Theorem simulate_keeps_elevation (σ : gmap nat (list (list Q))) dem d cfg :
  σ !! dem = Some d ->
  (Heap.simulate_heap dem cfg σ).2 !! dem = Some d
  /\ (forall l g, σ !! l = Some g ->
                  (Heap.simulate_heap dem cfg σ).2 !! l = Some g)
  /\ match simulate d cfg with
     | Ok water =>
         exists out,
           (Heap.simulate_heap dem cfg σ).1 = Ok out
           /\ out <> dem /\ σ !! out = None
           /\ (Heap.simulate_heap dem cfg σ).2 !! out = Some water
     | Err e => (Heap.simulate_heap dem cfg σ).1 = Err e
     end.
Proof.
  intros Hdem.
  pose proof (simulate_heap_spec σ dem d Hdem cfg) as [Hsub Hr].
  split; [eapply lookup_weaken; eauto |].
  split; [intros l g Hl; eapply lookup_weaken; eauto |].
  destruct (simulate d cfg) as [water | e]; [| exact Hr].
  destruct Hr as (out & Eout & Hnone & Hout).
  exists out. repeat split; try assumption. congruence.
Qed.

Lemma simulate_keeps_elevation_witness :
  ({[ 5%nat := dem_bump ]} : gmap nat (list (list Q))) !! 5%nat = Some dem_bump
  /\ (Heap.simulate_heap 5%nat cfg_single_50 {[ 5%nat := dem_bump ]}).2 !! 5%nat
     = Some dem_bump
  /\ exists out,
      (Heap.simulate_heap 5%nat cfg_single_50 {[ 5%nat := dem_bump ]}).1 = Ok out
      /\ out <> 5%nat.
Proof.
  assert (H : ({[ 5%nat := dem_bump ]} : gmap nat (list (list Q))) !! 5%nat
              = Some dem_bump) by apply lookup_singleton_eq.
  split; [exact H |].
  pose proof (simulate_keeps_elevation _ 5%nat dem_bump cfg_single_50 H)
    as (Hkeep & _ & Hout).
  split; [exact Hkeep |].
  destruct (simulate dem_bump cfg_single_50) as [water | e] eqn:E.
  - destruct Hout as (out & E1 & Hne & _). exists out. auto.
  - vm_compute in E. discriminate E.
Defined.

(** * Further properties of [simulate] *)

(** ** Algebra of [np.roll] *)

Section RollAlgebra.

Lemma roll1_zero {A} (l : list A) : roll1 0 l = l.
Proof.
  unfold roll1. destruct (length l) as [|n] eqn:E; [reflexivity |].
  rewrite Z.mod_0_l by lia. simpl Z.to_nat. rewrite Nat.sub_0_r, <- E.
  rewrite drop_all, take_ge by lia. reflexivity.
Qed.

Lemma wrap_wrap n i j k :
  (0 < n)%nat -> wrap n (wrap n i j) k = wrap n i (j + k).
Proof.
  intros Hn. unfold wrap.
  rewrite Z2Nat.id by (apply Z.mod_pos_bound; lia).
  rewrite Zminus_mod_idemp_l. f_equal. f_equal. lia.
Qed.

(** Rolling twice along one axis is rolling by the sum of the shifts. *)
Lemma roll1_roll1 {A} j k (l : list A) : roll1 j (roll1 k l) = roll1 (j + k) l.
Proof.
  apply list_eq. intros i. destruct (decide (i < length l)%nat) as [Hi | Hi].
  - rewrite roll1_lookup by (rewrite length_roll1; exact Hi).
    rewrite length_roll1, roll1_lookup by (apply wrap_lt, Hi).
    rewrite roll1_lookup by exact Hi. rewrite wrap_wrap by lia.
    reflexivity.
  - rewrite !lookup_ge_None_2; [reflexivity | |]; rewrite !length_roll1; lia.
Qed.

Lemma roll1_map {A B} (f : A -> B) k (l : list A) :
  roll1 k (map f l) = map f (roll1 k l).
Proof.
  unfold roll1. rewrite length_map. destruct (length l) as [|n]; [reflexivity |].
  rewrite map_app. change (@map A B f) with (@fmap list _ A B f).
  rewrite fmap_drop, fmap_take. reflexivity.
Qed.

Lemma roll1_zip_with {A B C} (f : A -> B -> C) k (a : list A) (b : list B) :
  length a = length b ->
  roll1 k (zip_with f a b) = zip_with f (roll1 k a) (roll1 k b).
Proof.
  intros Hl. apply list_eq. intros i.
  destruct (decide (i < length a)%nat) as [Hi | Hi].
  - rewrite roll1_lookup by (rewrite length_zip_with; lia).
    rewrite !lookup_zip_with, length_zip_with.
    rewrite !roll1_lookup by lia.
    replace (length a `min` length b)%nat with (length a) by lia.
    rewrite <- Hl. reflexivity.
  - rewrite !lookup_ge_None_2; [reflexivity | |];
      rewrite ?length_zip_with, ?length_roll1, ?length_zip_with; lia.
Qed.

Lemma map_roll1_roll1 (j k : Z) (g : grid) :
  map (roll1 j) (map (roll1 k) g) = map (roll1 (j + k)) g.
Proof. rewrite map_map. apply map_ext. intros r. apply roll1_roll1. Qed.

Lemma map_roll1_zero (g : grid) : map (roll1 0) g = g.
Proof.
  rewrite <- (map_id g) at 2. apply map_ext. intros r. apply roll1_zero.
Qed.

Lemma shift2_shift2 a b di dj (g : grid) :
  shift2 a b (shift2 di dj g) = shift2 (a + di) (b + dj) g.
Proof.
  unfold shift2, roll. rewrite roll1_map, map_roll1_roll1, roll1_roll1.
  reflexivity.
Qed.

Lemma shift2_zero (g : grid) : shift2 0 0 g = g.
Proof. unfold shift2, roll. rewrite roll1_zero. apply map_roll1_zero. Qed.

Lemma shift2_map1 f a b (g : grid) : shift2 a b (map1 f g) = map1 f (shift2 a b g).
Proof.
  unfold shift2, roll, map1. rewrite roll1_map, !map_map.
  apply map_ext. intros r. apply roll1_map.
Qed.

Lemma same_shape_roll1 k (x y : grid) :
  same_shape x y -> same_shape (roll1 k x) (roll1 k y).
Proof.
  unfold same_shape. intros H. unfold roll1.
  rewrite <- (Forall2_length _ _ _ H).
  destruct (length x); [exact H |].
  apply Forall2_app; [apply Forall2_drop | apply Forall2_take]; exact H.
Qed.

Lemma shift2_map2 f a b (x y : grid) :
  same_shape x y ->
  shift2 a b (map2 f x y) = map2 f (shift2 a b x) (shift2 a b y).
Proof.
  intros H. unfold shift2, roll, map2.
  rewrite roll1_zip_with by (eapply Forall2_length, H).
  apply same_shape_roll1 with (k := a) in H. unfold same_shape in H.
  induction H as [|u v x' y' Huv _ IH]; simpl; [reflexivity |].
  rewrite IH, roll1_zip_with by exact Huv. reflexivity.
Qed.

End RollAlgebra.

(** ** Periodic translation *)

Section Translation.

Variables (rows cols : nat) (a b : Z).

Lemma shift2_comm di dj (g : grid) :
  shift2 a b (shift2 di dj g) = shift2 di dj (shift2 a b g).
Proof. rewrite !shift2_shift2. f_equal; lia. Qed.

Lemma shift2_map2_rect f (x y : grid) :
  rect rows cols x -> rect rows cols y ->
  shift2 a b (map2 f x y) = map2 f (shift2 a b x) (shift2 a b y).
Proof. intros Hx Hy. apply shift2_map2. eapply rect_same_shape; eauto. Qed.

Lemma shift2_zeros_like (g : grid) :
  shift2 a b (zeros_like g) = zeros_like (shift2 a b g).
Proof. apply (shift2_map1 (fun _ => 0)). Qed.

Ltac solve_rect :=
  repeat first [ assumption | apply rect_map2 | apply rect_map1
               | apply rect_shift2 | apply rect_zeros_like ].

Lemma flux_of_shift2 (H : grid) :
  rect rows cols H -> flux_of (shift2 a b H) = shift2 a b (flux_of H).
Proof.
  intros HH. unfold flux_of, neighbours. cbn [fold_left].
  unfold add, sub, clip_lo.
  repeat (rewrite (shift2_map2_rect Qplus) by solve_rect).
  rewrite !shift2_map1.
  repeat (rewrite (shift2_map2_rect Qminus) by solve_rect).
  rewrite !shift2_comm, shift2_zeros_like. reflexivity.
Qed.

Lemma moved_of_shift2 (H : grid) :
  rect rows cols H -> moved_of (shift2 a b H) = shift2 a b (moved_of H).
Proof.
  intros HH. unfold moved_of, scale. rewrite shift2_map1, flux_of_shift2 by exact HH.
  reflexivity.
Qed.

Lemma redistribute_shift2 (moved water : grid) :
  rect rows cols moved -> rect rows cols water ->
  redistribute (shift2 a b moved) (shift2 a b water)
  = shift2 a b (redistribute moved water).
Proof.
  intros Hm Hw. unfold redistribute, neighbours. cbn [fold_left].
  unfold add, scale.
  repeat (rewrite (shift2_map2_rect Qplus) by solve_rect).
  rewrite !shift2_map1, !shift2_comm. reflexivity.
Qed.

Lemma flow_shift2 (dem water : grid) :
  rect rows cols dem -> rect rows cols water ->
  flow (shift2 a b dem) (shift2 a b water) = shift2 a b (flow dem water).
Proof.
  intros Hd Hw. unfold flow, surface, remove_outflow, add, sub, clip_lo.
  rewrite <- (shift2_map2_rect Qplus) by assumption.
  rewrite moved_of_shift2 by solve_rect.
  rewrite <- (shift2_map2_rect Qminus)
    by (try assumption; apply rect_moved_of; solve_rect).
  rewrite <- shift2_map1.
  apply redistribute_shift2.
  - apply rect_moved_of; solve_rect.
  - apply rect_map1, rect_map2; [assumption | apply rect_moved_of; solve_rect].
Qed.

Lemma before_edge_shift2 rps cfg (dem water : grid) :
  rect rows cols dem -> rect rows cols water ->
  before_edge (shift2 a b dem) rps cfg (shift2 a b water)
  = shift2 a b (before_edge dem rps cfg water).
Proof.
  intros Hd Hw. unfold before_edge, infiltrate, rain, clip_lo, sub_scalar,
    add_scalar.
  rewrite <- shift2_map1, flow_shift2 by solve_rect.
  rewrite !shift2_map1. reflexivity.
Qed.

Lemma run_shift2 rps cfg n : forall dem water,
  rect rows cols dem -> rect rows cols water ->
  allow_edge_outflow cfg = false ->
  exists w, run n dem rps cfg water = Ok w
            /\ run n (shift2 a b dem) rps cfg (shift2 a b water)
               = Ok (shift2 a b w).
Proof.
  induction n as [|n IH]; intros dem water Hd Hw Ho.
  - exists water. split; reflexivity.
  - cbn [run]. rewrite !step_no_edge by exact Ho.
    rewrite before_edge_shift2 by assumption. simpl.
    apply IH; auto using rect_before_edge.
Qed.

End Translation.

(** X1.  [np.roll] as used by [simulate] is undone by the opposite roll:
    [roll(roll(a, di, 0), dj, 1)] followed by the rolls by [-di] and [-dj]
    gives [a] back (the redistribution loop rolls by the opposites of the
    shifts of the flux loop), two double rolls compose by adding their
    shifts, and rolling by zero changes nothing. *)
Theorem roll_round_trip di dj a b (g : grid) :
  shift2 (- di) (- dj) (shift2 di dj g) = g
  /\ shift2 a b (shift2 di dj g) = shift2 (a + di) (b + dj) g
  /\ shift2 0 0 g = g.
Proof.
  split; [| split; [apply shift2_shift2 | apply shift2_zero]].
  rewrite shift2_shift2. replace (- di + di)%Z with 0%Z by lia.
  replace (- dj + dj)%Z with 0%Z by lia. apply shift2_zero.
Qed.

(** X2.  With edge outflow disabled the simulation commutes with periodic
    translation: rolling the elevation array by any shifts along both axes
    rolls the returned depth array by the same shifts, and a run that
    raises keeps raising the same error. *)
Theorem simulate_translation rows cols a b dem cfg :
  rect rows cols dem -> allow_edge_outflow cfg = false ->
  simulate (shift2 a b dem) cfg
  = match simulate dem cfg with
    | Ok w => Ok (shift2 a b w)
    | Err e => Err e
    end.
Proof.
  intros Hd Ho. unfold simulate.
  destruct (rain_per_step cfg) as [rps | e]; simpl; [| reflexivity].
  destruct (run_shift2 rows cols a b rps cfg (Z.to_nat (steps cfg)) dem
              (zeros_like dem) Hd (rect_zeros_like rows cols dem Hd) Ho)
    as (w & E1 & E2).
  rewrite <- shift2_zeros_like, E2, E1. reflexivity.
Qed.

Lemma simulate_translation_witness :
  rect 2 2 dem_bump /\ allow_edge_outflow cfg_single_50 = false
  /\ simulate (shift2 1 0 dem_bump) cfg_single_50
     = match simulate dem_bump cfg_single_50 with
       | Ok w => Ok (shift2 1 0 w)
       | Err e => Err e
       end.
Proof.
  assert (Hd : rect 2 2 dem_bump) by (split; [reflexivity | repeat constructor]).
  split; [exact Hd |]. split; [reflexivity |].
  apply (simulate_translation 2 2 1 0 dem_bump cfg_single_50 Hd). reflexivity.
Defined.

(** ** Empty arrays and shapes *)

Section EmptyArrays.

Lemma rect_empty_unique rows cols (x y : grid) :
  rect rows cols x -> rect rows cols y ->
  rows = 0%nat \/ cols = 0%nat -> x = y.
Proof.
  intros [Hlx Hx] [Hly Hy] [-> | ->].
  - destruct x, y; simpl in *; congruence.
  - subst rows. revert y Hly Hy.
    induction Hx as [|r x Hr _ IH]; intros [|s y] Hly Hy; simpl in *;
      try discriminate; [reflexivity |].
    inversion Hy; subst. f_equal.
    + destruct r, s; simpl in *; congruence.
    + apply IH; [lia | assumption].
Qed.

Lemma edge_outflow_rect rows cols g w :
  rect rows cols g -> edge_outflow g = Ok w -> rect rows cols w.
Proof.
  intros Hg E. destruct (decide (rows = 0%nat)) as [-> | Hr].
  { destruct Hg as [Hl _]. destruct g; [discriminate E | discriminate Hl]. }
  destruct (decide (cols = 0%nat)) as [-> | Hc].
  { rewrite (edge_outflow_no_cols rows g Hg) in E. discriminate E. }
  rewrite (edge_outflow_ok rows cols g Hg) in E by lia.
  injection E as <-. apply rect_edge_scaled, Hg.
Qed.

Lemma step_rect rows cols dem rps cfg water w :
  rect rows cols dem -> rect rows cols water ->
  step dem rps cfg water = Ok w -> rect rows cols w.
Proof.
  intros Hd Hw. rewrite step_edge_flag.
  pose proof (rect_before_edge rows cols dem rps cfg water Hd Hw) as Hb.
  destruct (allow_edge_outflow cfg); intros E.
  - exact (edge_outflow_rect rows cols _ w Hb E).
  - injection E as <-. exact Hb.
Qed.

Lemma run_rect rows cols dem rps cfg n : forall water w,
  rect rows cols dem -> rect rows cols water ->
  run n dem rps cfg water = Ok w -> rect rows cols w.
Proof.
  induction n as [|n IH]; intros water w Hd Hw E; cbn [run] in E.
  - injection E as <-. exact Hw.
  - destruct (step dem rps cfg water) as [w1 | e] eqn:E1; [| discriminate E].
    simpl in E. apply (IH w1 w Hd); [| exact E].
    exact (step_rect rows cols dem rps cfg water w1 Hd Hw E1).
Qed.

Lemma step_empty_edge rows cols dem rps cfg water :
  rect rows cols dem -> rect rows cols water ->
  rows = 0%nat \/ cols = 0%nat -> allow_edge_outflow cfg = true ->
  step dem rps cfg water = Err IndexError.
Proof.
  intros Hd Hw He Ho. rewrite step_edge_flag, Ho.
  pose proof (rect_before_edge rows cols dem rps cfg water Hd Hw) as Hb.
  destruct He as [-> | ->].
  - destruct Hb as [Hl _]. destruct (before_edge dem rps cfg water);
      [reflexivity | discriminate Hl].
  - apply (edge_outflow_no_cols rows), Hb.
Qed.

End EmptyArrays.

(** X3.  An elevation array with an empty axis (no rows, or rows of no
    columns): with edge outflow enabled and at least one step the run
    raises [IndexError] in its first step, at the border statements; with
    edge outflow disabled (and [steps] not zero) it returns an array equal
    to the empty input. *)
Theorem simulate_empty_terrain rows cols dem cfg :
  rect rows cols dem -> rows = 0%nat \/ cols = 0%nat -> steps cfg <> 0%Z ->
  (allow_edge_outflow cfg = true -> (1 <= steps cfg)%Z ->
   simulate dem cfg = Err IndexError)
  /\ (allow_edge_outflow cfg = false -> simulate dem cfg = Ok dem).
Proof.
  intros Hd He Hs. unfold simulate. rewrite rain_per_step_ok by exact Hs.
  simpl. set (rps := rainfall_mm cfg / 1000 / inject_Z (steps cfg)).
  pose proof (rect_zeros_like rows cols dem Hd) as Hz. split.
  - intros Ho H1. destruct (Z.to_nat (steps cfg)) as [|n] eqn:En; [lia |].
    cbn [run]. rewrite (step_empty_edge rows cols) by assumption. reflexivity.
  - intros Ho.
    assert (Hrun : forall n w, run n dem rps cfg (zeros_like dem) = Ok w ->
                               w = dem).
    { intros n w E. apply (rect_empty_unique rows cols); auto.
      exact (run_rect rows cols dem rps cfg n (zeros_like dem) w Hd Hz E). }
    assert (Htot : forall n water, exists w, run n dem rps cfg water = Ok w).
    { induction n as [|n IH]; intros water; cbn [run]; [eauto |].
      rewrite step_no_edge by exact Ho. simpl. apply IH. }
    destruct (Htot (Z.to_nat (steps cfg)) (zeros_like dem)) as [w E].
    rewrite E. f_equal. eapply Hrun, E.
Qed.

Lemma simulate_empty_terrain_witness :
  rect 2 0 [[]; []] /\ steps default_config <> 0%Z
  /\ simulate [[]; []] default_config = Err IndexError
  /\ simulate [[]; []] cfg_single_50 = Ok [[]; []].
Proof.
  assert (Hd : rect 2 0 [[]; []]) by (split; [reflexivity | repeat constructor]).
  assert (Hs : steps default_config <> 0%Z) by (simpl; lia).
  split; [exact Hd |]. split; [exact Hs |]. split.
  - apply (simulate_empty_terrain 2 0 [[]; []] default_config Hd);
      [right; reflexivity | exact Hs | reflexivity | simpl; lia].
  - apply (simulate_empty_terrain 2 0 [[]; []] cfg_single_50 Hd);
      [right; reflexivity | simpl; lia | reflexivity].
Defined.

Lemma simulate_total_nonempty rows cols dem cfg :
  rect rows cols dem -> (0 < rows)%nat -> (0 < cols)%nat ->
  (1 <= steps cfg)%Z -> exists w, simulate dem cfg = Ok w.
Proof.
  intros Hd Hr Hc Hs. unfold simulate. rewrite rain_per_step_ok by lia. simpl.
  destruct (run_total rows cols dem
              (rainfall_mm cfg / 1000 / inject_Z (steps cfg)) cfg
              (Z.to_nat (steps cfg)) (zeros_like dem) Hd
              (rect_zeros_like rows cols dem Hd) Hr Hc) as (w & E & _).
  eauto.
Qed.

(** X4.  Whenever [simulate] returns, the depth array has the shape of the
    elevation array, for every configuration (zero, one or many steps,
    either edge setting) and every rectangular input, empty ones
    included. *)
Theorem simulate_keeps_shape rows cols dem cfg w :
  rect rows cols dem -> simulate dem cfg = Ok w ->
  rect rows cols w /\ same_shape w dem.
Proof.
  intros Hd E. unfold simulate in E.
  destruct (rain_per_step cfg) as [rps | e]; [| discriminate E]. simpl in E.
  assert (Hw : rect rows cols w).
  { exact (run_rect rows cols dem rps cfg _ (zeros_like dem) w Hd
             (rect_zeros_like rows cols dem Hd) E). }
  split; [exact Hw | eapply rect_same_shape; eauto].
Qed.

Lemma simulate_keeps_shape_witness :
  rect 2 2 dem_bump
  /\ exists w, simulate dem_bump default_config = Ok w
               /\ rect 2 2 w /\ same_shape w dem_bump.
Proof.
  assert (Hd : rect 2 2 dem_bump) by (split; [reflexivity | repeat constructor]).
  split; [exact Hd |].
  destruct (simulate_total_nonempty 2 2 dem_bump default_config Hd)
    as [w E]; [lia | lia | simpl; lia |].
  exists w. split; [exact E |].
  exact (simulate_keeps_shape 2 2 dem_bump default_config w Hd E).
Defined.

(** ** Border factors on thin grids *)

(** X5.  On a grid with a single row or a single column the border
    statements overlap: with one row and at least two columns every cell is
    covered by both row statements, so the two end cells are multiplied by
    [0.7^3 = 0.343] and the others by [0.49]; likewise for one column; the
    only cell of a 1x1 grid is multiplied by [0.7^4 = 0.2401]. *)
Theorem edge_outflow_thin_grid rows cols water :
  rect rows cols water -> (0 < rows)%nat -> (0 < cols)%nat ->
  exists water',
    edge_outflow water = Ok water'
    /\ (rows = 1%nat -> cols = 1%nat ->
        cell water' 0 0 == cell water 0 0 * (2401 # 10000))
    /\ (rows = 1%nat -> (2 <= cols)%nat ->
        forall c, (c < cols)%nat ->
          cell water' 0 c
          == cell water 0 c
             * (if decide (c = 0%nat \/ c = (cols - 1)%nat)
                then 343 # 1000 else 49 # 100))
    /\ ((2 <= rows)%nat -> cols = 1%nat ->
        forall r, (r < rows)%nat ->
          cell water' r 0
          == cell water r 0
             * (if decide (r = 0%nat \/ r = (rows - 1)%nat)
                then 343 # 1000 else 49 # 100)).
Proof.
  intros Hw Hr Hc. exists (edge_scaled rows cols water).
  split; [apply edge_outflow_ok; assumption |].
  split; [| split].
  - intros -> ->. rewrite (edge_scaled_cell 1 1 water 0 0 Hw) by lia.
    reflexivity.
  - intros -> Hc2 c Hcc. rewrite (edge_scaled_cell 1 cols water 0 c Hw) by lia.
    destruct (decide (c = 0%nat \/ c = (cols - 1)%nat)) as [Hb | Hn].
    + assert (E : edge_hits 1 cols 0 c = 3%nat)
        by (unfold edge_hits; repeat destruct (decide _); lia).
      rewrite E. simpl. ring.
    + assert (E : edge_hits 1 cols 0 c = 2%nat)
        by (unfold edge_hits; repeat destruct (decide _); lia).
      rewrite E. simpl. ring.
  - intros Hr2 -> r Hrr. rewrite (edge_scaled_cell rows 1 water r 0 Hw) by lia.
    destruct (decide (r = 0%nat \/ r = (rows - 1)%nat)) as [Hb | Hn].
    + assert (E : edge_hits rows 1 r 0 = 3%nat)
        by (unfold edge_hits; repeat destruct (decide _); lia).
      rewrite E. simpl. ring.
    + assert (E : edge_hits rows 1 r 0 = 2%nat)
        by (unfold edge_hits; repeat destruct (decide _); lia).
      rewrite E. simpl. ring.
Qed.

Lemma edge_outflow_thin_grid_witness :
  rect 1 3 [[1; 1; 1]]
  /\ exists water',
      edge_outflow [[1; 1; 1]] = Ok water'
      /\ cell water' 0 0 == 343 # 1000
      /\ cell water' 0 1 == 49 # 100
      /\ cell water' 0 2 == 343 # 1000.
Proof.
  assert (Hw : rect 1 3 [[1; 1; 1]]) by (split; [reflexivity | repeat constructor]).
  split; [exact Hw |].
  destruct (edge_outflow_thin_grid 1 3 [[1; 1; 1]] Hw)
    as (w & E & _ & Hrow & _); [lia | lia |].
  exists w. split; [exact E |].
  pose proof (Hrow eq_refl ltac:(lia)) as H.
  split; [| split].
  - rewrite (H 0%nat) by lia. reflexivity.
  - rewrite (H 1%nat) by lia. reflexivity.
  - rewrite (H 2%nat) by lia. reflexivity.
Defined.

(** ** Closed forms on constant terrain *)

Section FlatClosedForms.

Variables (rows cols : nat) (dem : grid) (e : Q).
Hypothesis Hdem : rect rows cols dem.
Hypothesis Hflat : uniform e dem.

(** If a step's rain does not exceed the infiltration, a dry cell of a flat
    field is dry again at the end of the step. *)
Lemma step_flat_soaked rps cfg water :
  (0 < rows)%nat -> (0 < cols)%nat ->
  rect rows cols water -> uniform 0 water ->
  0 <= rps -> rps <= infiltration_m cfg ->
  exists water', step dem rps cfg water = Ok water'
                 /\ rect rows cols water' /\ uniform 0 water'.
Proof.
  intros Hr Hc Hw Hu H0 Hle.
  assert (Hb : uniform 0 (before_edge dem rps cfg water)).
  { eapply uniform_Qeq;
      [| apply (before_edge_flat dem e Hflat rps cfg 0 water Hu); lra].
    apply Q.max_r. lra. }
  pose proof (rect_before_edge rows cols dem rps cfg water Hdem Hw) as Rb.
  destruct (allow_edge_outflow cfg) eqn:Eo.
  - eexists. split; [apply (step_edge rows cols); assumption |].
    split; [apply rect_edge_scaled, Rb |].
    apply all_edge_scaled; [| exact Hb]. intros x Hx. rewrite Hx. reflexivity.
  - eexists. split; [apply step_no_edge, Eo |]. auto.
Qed.

Lemma run_flat_soaked rps cfg n : forall water,
  (0 < rows)%nat -> (0 < cols)%nat ->
  rect rows cols water -> uniform 0 water ->
  0 <= rps -> rps <= infiltration_m cfg ->
  exists water', run n dem rps cfg water = Ok water'
                 /\ rect rows cols water' /\ uniform 0 water'.
Proof.
  induction n as [|n IH]; intros water Hr Hc Hw Hu H0 Hle.
  - exists water. simpl. auto.
  - destruct (step_flat_soaked rps cfg water) as (w1 & E1 & R1 & U1); auto.
    destruct (IH w1) as (w2 & E2 & R2 & U2); auto.
    exists w2. cbn [run]. rewrite E1. simpl. auto.
Qed.

End FlatClosedForms.

Lemma rain_per_step_total cfg :
  (1 <= steps cfg)%Z ->
  inject_Z (Z.of_nat (Z.to_nat (steps cfg)))
  * (rainfall_mm cfg / 1000 / inject_Z (steps cfg))
  == rainfall_mm cfg / 1000.
Proof.
  intros Hs. rewrite Z2Nat.id by lia.
  assert (Hne : ~ inject_Z (steps cfg) == 0).
  { intros H. unfold Qeq in H. simpl in H. lia. }
  field. exact Hne.
Qed.

Lemma rain_per_step_nonneg cfg :
  0 <= rainfall_mm cfg -> (1 <= steps cfg)%Z ->
  0 <= rainfall_mm cfg / 1000 / inject_Z (steps cfg).
Proof.
  intros Hr Hs. unfold Qdiv.
  assert (H1 : 0 <= / 1000) by (vm_compute; discriminate).
  assert (H2 : 0 <= / inject_Z (steps cfg)).
  { apply Qinv_le_0_compat. change 0 with (inject_Z 0).
    rewrite <- Zle_Qle. lia. }
  apply Qmult_le_0_compat; [apply Qmult_le_0_compat |]; assumption.
Qed.

(** X6.  On terrain of constant elevation, with no infiltration and edge
    outflow disabled, nothing flows: for every non-negative rainfall and
    every [steps >= 1] the run returns the depth [rainfall_mm / 1000]
    metres in every cell (the whole rainfall, spread evenly), whatever the
    size of the grid. *)
Theorem simulate_flat_keeps_rain rows cols dem e cfg :
  rect rows cols dem -> uniform e dem ->
  0 <= rainfall_mm cfg -> (1 <= steps cfg)%Z ->
  infiltration_m cfg == 0 -> allow_edge_outflow cfg = false ->
  exists w, simulate dem cfg = Ok w
            /\ rect rows cols w
            /\ uniform (rainfall_mm cfg / 1000) w.
Proof.
  intros Hd He Hr Hs Hi Ho. unfold simulate.
  rewrite rain_per_step_ok by lia. simpl.
  destruct (run_flat_no_loss rows cols dem e Hd He
              (rainfall_mm cfg / 1000 / inject_Z (steps cfg)) cfg
              (Z.to_nat (steps cfg)) 0 (zeros_like dem)
              (rect_zeros_like rows cols dem Hd) (uniform_zeros_like dem)
              (Qle_refl 0) (rain_per_step_nonneg cfg Hr Hs) Hi Ho)
    as (w & E & R & U).
  exists w. split; [exact E |]. split; [exact R |].
  eapply uniform_Qeq; [| exact U].
  rewrite rain_per_step_total by exact Hs. ring.
Qed.

Lemma simulate_flat_keeps_rain_witness :
  rect 4 4 dem_flat4 /\ uniform 0 dem_flat4
  /\ exists w, simulate dem_flat4 cfg_flat4 = Ok w
               /\ rect 4 4 w /\ uniform (rainfall_mm cfg_flat4 / 1000) w.
Proof.
  assert (Hd : rect 4 4 dem_flat4) by (split; [reflexivity | repeat constructor]).
  assert (Hu : uniform 0 dem_flat4) by (repeat constructor).
  split; [exact Hd |]. split; [exact Hu |].
  apply (simulate_flat_keeps_rain 4 4 dem_flat4 0 cfg_flat4 Hd Hu);
    [vm_compute; discriminate | simpl; lia | reflexivity | reflexivity].
Defined.

(** X7.  On non-empty terrain of constant elevation, when the rain of one
    step does not exceed the infiltration of one step
    ([rainfall_mm / 1000 / steps <= infiltration_m]; the defaults 120 mm,
    250 steps, 0.002 m satisfy it), every cell is dry after every step and
    in the returned array, with either edge setting. *)
Theorem simulate_flat_soaks_away rows cols dem e cfg :
  rect rows cols dem -> (0 < rows)%nat -> (0 < cols)%nat -> uniform e dem ->
  0 <= rainfall_mm cfg -> (1 <= steps cfg)%Z ->
  rainfall_mm cfg / 1000 / inject_Z (steps cfg) <= infiltration_m cfg ->
  (forall n, exists w,
      run n dem (rainfall_mm cfg / 1000 / inject_Z (steps cfg)) cfg
        (zeros_like dem) = Ok w /\ uniform 0 w)
  /\ exists w, simulate dem cfg = Ok w /\ uniform 0 w.
Proof.
  intros Hd Hr Hc He Hrain Hs Hle.
  assert (Hrun : forall n, exists w,
             run n dem (rainfall_mm cfg / 1000 / inject_Z (steps cfg)) cfg
               (zeros_like dem) = Ok w /\ uniform 0 w).
  { intros n.
    destruct (run_flat_soaked rows cols dem e Hd He
                (rainfall_mm cfg / 1000 / inject_Z (steps cfg)) cfg n
                (zeros_like dem) Hr Hc (rect_zeros_like rows cols dem Hd)
                (uniform_zeros_like dem) (rain_per_step_nonneg cfg Hrain Hs)
                Hle) as (w & E & _ & U).
    eauto. }
  split; [exact Hrun |].
  unfold simulate. rewrite rain_per_step_ok by lia. simpl. apply Hrun.
Qed.

Lemma simulate_flat_soaks_away_witness :
  rect 4 4 dem_flat4 /\ uniform 0 dem_flat4
  /\ rainfall_mm default_config / 1000 / inject_Z (steps default_config)
     <= infiltration_m default_config
  /\ exists w, simulate dem_flat4 default_config = Ok w /\ uniform 0 w.
Proof.
  assert (Hd : rect 4 4 dem_flat4) by (split; [reflexivity | repeat constructor]).
  assert (Hu : uniform 0 dem_flat4) by (repeat constructor).
  assert (Hle : rainfall_mm default_config / 1000
                / inject_Z (steps default_config)
                <= infiltration_m default_config) by (vm_compute; discriminate).
  split; [exact Hd |]. split; [exact Hu |]. split; [exact Hle |].
  apply (simulate_flat_soaks_away 4 4 dem_flat4 0 default_config Hd);
    [lia | lia | exact Hu | vm_compute; discriminate | simpl; lia | exact Hle].
Defined.

(** ** The water balance of one step *)

Section Balance.

Lemma sum_min_le_r (a b : grid) :
  same_shape a b -> sum (map2 Qmin a b) <= sum b.
Proof.
  unfold same_shape, map2. induction 1 as [|x y a b Hxy _ IH]; simpl; [lra |].
  assert (E : row_sum (zip_with Qmin x y) <= row_sum y).
  { clear IH. revert y Hxy. induction x as [|u x IHx]; intros [|v y] Hl;
      simpl in Hl; try lia; [simpl; lra |].
    specialize (IHx y ltac:(lia)). pose proof (Q.le_min_r u v).
    change (Qmin u v + row_sum (zip_with Qmin x y) <= v + row_sum y). lra. }
  lra.
Qed.

Lemma sum_min_nonneg (a b : grid) :
  nonneg a -> nonneg b -> 0 <= sum (map2 Qmin a b).
Proof.
  intros Ha Hb. apply sum_nonneg. unfold nonneg.
  eapply all_map2; [| exact Ha | exact Hb].
  intros x y Hx Hy. simpl in *. apply Q.min_glb; assumption.
Qed.

End Balance.

(** X8.  The water balance of a step without infiltration and edge
    outflow, on any terrain and any depths: the total after the step is
    the total before, plus the rainfall, plus [0.2 * sum(moved)] handed to
    the neighbours, minus [sum(min(depth, moved))] taken out of the cells
    ([moved = 0.2 * flux], depths after rainfall).  With no negative depth
    the step therefore adds at most [0.2 * sum(moved)] to, and takes at
    most [0.8 * sum(moved)] from, the total beyond the rainfall. *)
Theorem step_exact_balance rows cols dem water rps cfg :
  rect rows cols dem -> rect rows cols water ->
  infiltration_m cfg == 0 -> allow_edge_outflow cfg = false ->
  exists water',
    step dem rps cfg water = Ok water'
    /\ sum water'
       == sum water + rps * cells rows cols
          + (2 # 10) * sum (moved_of (surface dem (rain rps water)))
          - sum (map2 Qmin (rain rps water)
                   (moved_of (surface dem (rain rps water))))
    /\ (nonneg (rain rps water) ->
        sum water'
        <= sum water + rps * cells rows cols
           + (2 # 10) * sum (moved_of (surface dem (rain rps water)))
        /\ sum water + rps * cells rows cols
           - (8 # 10) * sum (moved_of (surface dem (rain rps water)))
           <= sum water').
Proof.
  intros Hd Hw Hi Ho. exists (before_edge dem rps cfg water).
  split; [apply step_no_edge, Ho |].
  pose proof (sum_before_edge rows cols dem rps cfg water Hd Hw Hi) as Hb.
  cbv zeta in Hb.
  set (wet := rain rps water) in *.
  set (moved := moved_of (surface dem wet)) in *.
  split; [rewrite Hb; ring |].
  intros Hn.
  assert (Hs : same_shape wet moved).
  { apply (rect_same_shape rows cols); [apply rect_rain, Hw |].
    apply rect_moved_of, rect_surface; [exact Hd | apply rect_rain, Hw]. }
  pose proof (sum_min_le_r wet moved Hs).
  pose proof (sum_min_nonneg wet moved Hn (nonneg_moved_of _)).
  rewrite Hb. split; lra.
Qed.

Lemma step_exact_balance_witness :
  rect 2 2 dem_bump /\ rect 2 2 (zeros_like dem_bump)
  /\ infiltration_m cfg_single_50 == 0
  /\ allow_edge_outflow cfg_single_50 = false
  /\ exists water',
      step dem_bump (5 # 100) cfg_single_50 (zeros_like dem_bump) = Ok water'
      /\ sum water'
         == sum (zeros_like dem_bump) + (5 # 100) * cells 2 2
            + (2 # 10)
              * sum (moved_of (surface dem_bump
                                 (rain (5 # 100) (zeros_like dem_bump))))
            - sum (map2 Qmin (rain (5 # 100) (zeros_like dem_bump))
                     (moved_of (surface dem_bump
                                  (rain (5 # 100) (zeros_like dem_bump))))).
Proof.
  assert (Hd : rect 2 2 dem_bump) by (split; [reflexivity | repeat constructor]).
  assert (Hw : rect 2 2 (zeros_like dem_bump))
    by (split; [reflexivity | repeat constructor]).
  assert (Hi : infiltration_m cfg_single_50 == 0) by reflexivity.
  assert (Ho : allow_edge_outflow cfg_single_50 = false) by reflexivity.
  repeat (split; [assumption |]).
  destruct (step_exact_balance 2 2 dem_bump (zeros_like dem_bump) (5 # 100)
              cfg_single_50 Hd Hw Hi Ho) as (w & E & Hsum & _).
  exists w. split; [exact E | exact Hsum].
Defined.

(** ** Pits and inflow, cell by cell *)

(** X9.  A cell has zero outflow potential exactly when its surface is not
    above the surface of any of its four periodic neighbours, and the
    potential is never negative; at such a cell the removal substep leaves
    a non-negative depth as it is. *)
Theorem no_outflow_iff_pit rows cols dem wet r c :
  rect rows cols dem -> rect rows cols wet ->
  (r < rows)%nat -> (c < cols)%nat ->
  let H := surface dem wet in
  let h := cell H r c in
  0 <= cell (flux_of H) r c
  /\ (cell (flux_of H) r c == 0
      <-> h <= cell H ((r + 1) mod rows) c
          /\ h <= cell H ((r + rows - 1) mod rows) c
          /\ h <= cell H r ((c + 1) mod cols)
          /\ h <= cell H r ((c + cols - 1) mod cols))
  /\ (cell (flux_of H) r c == 0 -> 0 <= cell wet r c ->
      cell (remove_outflow (moved_of H) wet) r c == cell wet r c).
Proof.
  intros Hd Hw Hr Hc H h.
  assert (HH : rect rows cols H) by (apply rect_surface; assumption).
  rewrite (remove_outflow_cell rows cols H wet r c HH Hw Hr Hc).
  rewrite (flux_of_cell rows cols H r c HH Hr Hc). cbv zeta. fold h.
  set (n := cell H ((r + 1) mod rows) c).
  set (s := cell H ((r + rows - 1) mod rows) c).
  set (ea := cell H r ((c + 1) mod cols)).
  set (we := cell H r ((c + cols - 1) mod cols)).
  destruct (Q.max_spec (h - n) 0) as [[A1 A2] | [A1 A2]];
    destruct (Q.max_spec (h - s) 0) as [[B1 B2] | [B1 B2]];
    destruct (Q.max_spec (h - ea) 0) as [[C1 C2] | [C1 C2]];
    destruct (Q.max_spec (h - we) 0) as [[D1 D2] | [D1 D2]];
    rewrite A2, B2, C2, D2;
    (split; [lra | split; [split; [intros E; lra | intros (? & ? & ? & ?); lra]
                          | intros E Hw0; rewrite Q.max_l; lra]]).
Qed.

Lemma no_outflow_iff_pit_witness :
  rect 2 2 dem_bump /\ rect 2 2 (zeros_like dem_bump)
  /\ cell (flux_of (surface dem_bump (zeros_like dem_bump))) 1 1 == 0.
Proof.
  assert (Hd : rect 2 2 dem_bump) by (split; [reflexivity | repeat constructor]).
  assert (Hw : rect 2 2 (zeros_like dem_bump))
    by (split; [reflexivity | repeat constructor]).
  split; [exact Hd |]. split; [exact Hw |].
  destruct (no_outflow_iff_pit 2 2 dem_bump (zeros_like dem_bump) 1 1 Hd Hw)
    as (_ & Hiff & _); [lia | lia |].
  apply Hiff. vm_compute. repeat split; discriminate.
Defined.

Lemma redistribute_cell rows cols moved water r c :
  rect rows cols moved -> rect rows cols water ->
  (r < rows)%nat -> (c < cols)%nat ->
  cell (redistribute moved water) r c
  = cell water r c
    + (5 # 100) * cell moved ((r + rows - 1) mod rows) c
    + (5 # 100) * cell moved ((r + 1) mod rows) c
    + (5 # 100) * cell moved r ((c + cols - 1) mod cols)
    + (5 # 100) * cell moved r ((c + 1) mod cols).
Proof.
  intros Hm Hw Hr Hc. apply at_cell_cell.
  assert (Hs : forall di dj,
             at_cell (scale (5 # 100) (shift2 di dj moved)) r c
               ((5 # 100) * cell moved (wrap rows r di) (wrap cols c dj))).
  { intros di dj. unfold scale.
    apply (at_cell_map1 (fun x => (5 # 100) * x)), at_cell_shift2; assumption. }
  unfold redistribute, neighbours. cbn [fold_left Z.opp]. unfold add.
  pose proof (Hs 1%Z 0%Z) as H1. pose proof (Hs (-1)%Z 0%Z) as H2.
  pose proof (Hs 0%Z 1%Z) as H3. pose proof (Hs 0%Z (-1)%Z) as H4.
  rewrite wrap_plus_one, wrap_zero in H1 by assumption.
  rewrite wrap_minus_one, wrap_zero in H2 by assumption.
  rewrite wrap_plus_one, wrap_zero in H3 by assumption.
  rewrite wrap_minus_one, wrap_zero in H4 by assumption.
  repeat (apply (at_cell_map2 Qplus); [| assumption]).
  apply (rect_at_cell rows cols); assumption.
Qed.

(** X10.  After the redistribution loop a cell holds what removal left in
    it plus [0.05 * moved] of each of its four periodic neighbours (the
    neighbour's whole [moved], whichever way that neighbour slopes), so no
    cell loses water in this substep. *)
Theorem inflow_cell rows cols moved water r c :
  rect rows cols moved -> rect rows cols water ->
  (r < rows)%nat -> (c < cols)%nat ->
  cell (redistribute moved water) r c
  == cell water r c
     + (5 # 100)
       * (cell moved ((r + rows - 1) mod rows) c
          + cell moved ((r + 1) mod rows) c
          + cell moved r ((c + cols - 1) mod cols)
          + cell moved r ((c + 1) mod cols))
  /\ (nonneg moved -> cell water r c <= cell (redistribute moved water) r c).
Proof.
  intros Hm Hw Hr Hc.
  rewrite (redistribute_cell rows cols moved water r c Hm Hw Hr Hc).
  split; [ring |]. intros Hn.
  assert (Hcell : forall i j, (i < rows)%nat -> (j < cols)%nat ->
                              0 <= cell moved i j).
  { intros i j Hi Hj. destruct Hm as [Hl Hf].
    apply (all_cell (fun x => 0 <= x)); [exact Hn | lia |].
    assert (Hrow : length (nth i moved []) = cols).
    { eapply Forall_forall in Hf; [exact Hf |].
      apply list_elem_of_In, nth_In. lia. }
    lia. }
  assert (Hrpos : (0 < rows)%nat) by lia.
  assert (Hcpos : (0 < cols)%nat) by lia.
  assert (Hrne : rows <> 0%nat) by lia.
  assert (Hcne : cols <> 0%nat) by lia.
  pose proof (Hcell ((r + rows - 1) mod rows)%nat c
                (Nat.mod_upper_bound (r + rows - 1) rows Hrne) Hc).
  pose proof (Hcell ((r + 1) mod rows)%nat c
                (Nat.mod_upper_bound (r + 1) rows Hrne) Hc).
  pose proof (Hcell r ((c + cols - 1) mod cols)%nat Hr
                (Nat.mod_upper_bound (c + cols - 1) cols Hcne)).
  pose proof (Hcell r ((c + 1) mod cols)%nat Hr
                (Nat.mod_upper_bound (c + 1) cols Hcne)).
  lra.
Qed.

Lemma inflow_cell_witness :
  rect 2 2 dem_bump /\ rect 2 2 (zeros_like dem_bump)
  /\ cell (redistribute dem_bump (zeros_like dem_bump)) 0 1 == 1 # 10.
Proof.
  assert (Hd : rect 2 2 dem_bump) by (split; [reflexivity | repeat constructor]).
  assert (Hw : rect 2 2 (zeros_like dem_bump))
    by (split; [reflexivity | repeat constructor]).
  split; [exact Hd |]. split; [exact Hw |].
  destruct (inflow_cell 2 2 dem_bump (zeros_like dem_bump) 0 1 Hd Hw)
    as [Hcell _]; [lia | lia |].
  rewrite Hcell. vm_compute. reflexivity.
Defined.

(** ** Equal inputs, equal outputs; the elevation datum *)

Section Congruence.

Lemma grid_eq_refl a : grid_eq a a.
Proof.
  unfold grid_eq. induction a as [|r a IH]; constructor; [| exact IH].
  induction r; constructor; [reflexivity | assumption].
Qed.




























End Congruence.


(** ** The depth-damage curve *)

Section DepthDamage.

Import LossDamage.

(** The curve, branch by branch. *)
Lemma depth_damage_cases d :
  (d <= 0 /\ depth_damage_fraction d = 0)
  \/ (0 < d < 2 # 10 /\ depth_damage_fraction d == (1 # 2) * d)
  \/ (2 # 10 <= d < 1 /\ depth_damage_fraction d == (1 # 2) * d)
  \/ (1 <= d < 2 /\ depth_damage_fraction d == (1 # 10) + (4 # 10) * d)
  \/ (2 <= d /\ depth_damage_fraction d = 95 # 100).
Proof.
  unfold depth_damage_fraction.
  destruct (Qle_bool d 0) eqn:E0.
  { apply Qle_bool_iff in E0. left. auto. }
  assert (H0 : 0 < d).
  { apply Qnot_le_lt. intros H. apply Qle_bool_iff in H. congruence. }
  destruct (Qlt_le_dec d (2 # 10)) as [H1 | H1].
  { right; left. split; [split; assumption | field]. }
  destruct (Qlt_le_dec d 1) as [H2 | H2].
  { right; right; left. split; [split; assumption | field]. }
  destruct (Qlt_le_dec d 2) as [H3 | H3].
  { right; right; right; left. split; [split; assumption | field]. }
  right; right; right; right. auto.
Qed.

End DepthDamage.

(** X12.  The depth-damage curve returns a fraction between 0 and 0.95 for
    every depth, returns 0 exactly for depths that are not positive, and
    never decreases when the depth increases. *)
Theorem depth_damage_range_monotone d1 d2 :
  0 <= LossDamage.depth_damage_fraction d1 <= 95 # 100
  /\ (LossDamage.depth_damage_fraction d1 == 0 <-> d1 <= 0)
  /\ (d1 <= d2 ->
      LossDamage.depth_damage_fraction d1
      <= LossDamage.depth_damage_fraction d2).
Proof.
  destruct (depth_damage_cases d1)
    as [[A E] | [[A E] | [[A E] | [[A E] | [A E]]]]];
    destruct (depth_damage_cases d2)
      as [[B F] | [[B F] | [[B F] | [[B F] | [B F]]]]];
    rewrite E, F;
    (split; [lra | split; [split; intros; lra | intros; lra]]).
Qed.

(** X13.  The curve is continuous where its first branches meet (10 % at
    0.2 m, 50 % at 1 m) but not at 2 m: below 2 m the fraction stays below
    90 %, from 2 m on it is 95 %. *)
Theorem depth_damage_breakpoints d :
  LossDamage.depth_damage_fraction (2 # 10) == 1 # 10
  /\ LossDamage.depth_damage_fraction 1 == 5 # 10
  /\ (d < 2 -> LossDamage.depth_damage_fraction d < 9 # 10)
  /\ (2 <= d -> LossDamage.depth_damage_fraction d == 95 # 100)
  /\ (0 < d < 1 -> LossDamage.depth_damage_fraction d == (1 # 2) * d).
Proof.
  split; [| split].
  - destruct (depth_damage_cases (2 # 10))
      as [[A E] | [[A E] | [[A E] | [[A E] | [A E]]]]]; rewrite E; lra.
  - destruct (depth_damage_cases 1)
      as [[A E] | [[A E] | [[A E] | [[A E] | [A E]]]]]; rewrite E; lra.
  - destruct (depth_damage_cases d)
      as [[A E] | [[A E] | [[A E] | [[A E] | [A E]]]]]; rewrite E;
      (split; [intros; lra | split; intros; lra]).
Qed.
